(** * Catalog discovery of crawler.py: a shallow embedding

    The development follows [src/crawler.py]: the link classifier
    [is_chapter_link], the container choice and the extraction pass inside
    [parse_chapters], and the page walk of [parse_chapters] itself.

    Python values are modelled as follows.
    - [str] is a sequence of Unicode code points ([len], [in], [startswith]
      and the regular expressions of the source all work on code points).
    - A parsed page is a tree of [Tag]s and [NavigableString]s.
    - [set()] is a [gset], a [dict] with the two keys ['title'] and ['url']
      is a record.
    - What the source obtains from outside (the network, the HTML parser,
      [urljoin], the Unicode tables behind [\d] and [\s]) is a field of one
      of the classes [Unicode] and [Web].
    - An exception is a result ([Raise], [Exception]); the pause of line 160
      has no effect on any value and is left out. *)

From stdpp Require Import base numbers option list strings gmap sets.


Local Open Scope N_scope.

(** ** Python strings *)

(** A [str]: its code points, in order. *)
Definition str : Type := list N.

(** Decoding of the UTF-8 bytes of a literal of this file into code points
    (a literal such as ["第12章"] holds bytes; the source, a Python 3 file,
    holds code points). *)
Fixpoint utf8_decode (bs : list N) : str :=
  match bs with
  | [] => []
  | b0 :: r0 =>
    if b0 <? 128 then b0 :: utf8_decode r0
    else if b0 <? 224 then
      match r0 with
      | b1 :: r1 => ((b0 `mod` 32) * 64 + b1 `mod` 64) :: utf8_decode r1
      | _ => []
      end
    else if b0 <? 240 then
      match r0 with
      | b1 :: b2 :: r2 =>
        ((b0 `mod` 16) * 4096 + (b1 `mod` 64) * 64 + b2 `mod` 64)
          :: utf8_decode r2
      | _ => []
      end
    else
      match r0 with
      | b1 :: b2 :: b3 :: r3 =>
        ((b0 `mod` 8) * 262144 + (b1 `mod` 64) * 4096
         + (b2 `mod` 64) * 64 + b3 `mod` 64) :: utf8_decode r3
      | _ => []
      end
  end.

(** [u "..."] is the Python literal ['...']. *)
Definition u (s : string) : str :=
  utf8_decode (Ascii.N_of_ascii <$> String.list_ascii_of_string s).
Arguments u _%_string.

(** [s.startswith(p)] *)
Fixpoint startswith (p s : str) : bool :=
  match p, s with
  | [], _ => true
  | _ :: _, [] => false
  | a :: p', b :: s' => (a =? b) && startswith p' s'
  end.

(** [k in s] on strings: [k] occurs in [s] as a contiguous run. *)
Fixpoint contains (k s : str) : bool :=
  startswith k s ||
  match s with
  | [] => false
  | _ :: s' => contains k s'
  end.

(** Truth value of a string in a condition ([if text], [if not html]). *)
Definition truthy (s : str) : bool :=
  match s with [] => false | _ :: _ => true end.

(** ** Character classes *)

(** The part of the interpreter's Unicode database the regular expressions
    and [strip] consult outside ASCII: which further code points count as
    decimal digits ([\d]) and as whitespace ([\s], [str.strip]). *)
Class Unicode := {
  uni_digit : N → bool;
  uni_space : N → bool
}.

(** ['0'] to ['9'] *)
Definition ascii_digit (c : N) : bool := (48 <=? c) && (c <=? 57).

(** The six whitespace characters of ASCII: [ \t\n\v\f\r] *)
Definition ascii_space (c : N) : bool :=
  bool_decide (c ∈ [32; 9; 10; 11; 12; 13]).

Section Classifier.
Context `{Unicode}.

(** [\d] of a [str] pattern *)
Definition isdecimal (c : N) : bool := ascii_digit c || uni_digit c.

(** [\s] of a [str] pattern; also what [strip] removes *)
Definition isspace (c : N) : bool := ascii_space c || uni_space c.

(** [s.strip()] *)
Fixpoint lstrip (s : str) : str :=
  match s with
  | [] => []
  | c :: r => if isspace c then lstrip r else s
  end.

Definition rstrip (s : str) : str := reverse (lstrip (reverse s)).

Definition strip (s : str) : str := rstrip (lstrip s).

(** ** Regular expressions

    A pattern is run as a matcher: a function that tells whether the
    pattern matches at the head of the remaining text. The matchers below
    compose by continuation, so [X+] followed by the rest of a pattern tries
    every number of repetitions, as the backtracking engine does. *)

Definition matcher : Type := str → bool.

(** End of the pattern: whatever is left of the text is accepted. *)
Definition accept : matcher := λ _, true.

(** One character of a class, then [k]. *)
Definition class_then (cls : N → bool) (k : matcher) : matcher :=
  λ s, match s with
       | [] => false
       | c :: r => cls c && k r
       end.

(** [cls+], then [k]. *)
Fixpoint plus_then (cls : N → bool) (k : matcher) (s : str) : bool :=
  match s with
  | [] => false
  | c :: r => cls c && (k r || plus_then cls k r)
  end.

(** [$] without [re.MULTILINE]: the end of the text, or just before a
    newline that ends the text. *)
Definition at_end : matcher :=
  λ s, match s with
       | [] => true
       | [c] => c =? 10
       | _ => false
       end.

(** [re.search] of an unanchored pattern: the first position at which the
    pattern matches, if any. *)
Fixpoint re_search (m : matcher) (s : str) : bool :=
  m s ||
  match s with
  | [] => false
  | _ :: r => re_search m r
  end.

(** A pattern that starts with [^] matches at position 0 only, under
    [re.search] as under [re.match]. *)
Definition re_at_start (m : matcher) (s : str) : bool := m s.

(** [[0-9一二三四五六七八九十百千]] *)
Definition numeral_class (c : N) : bool :=
  ascii_digit c || bool_decide (c ∈ u "一二三四五六七八九十百千").

(** [[章回节]] *)
Definition unit_class (c : N) : bool := bool_decide (c ∈ u "章回节").

(** [[\.\s、]] *)
Definition separator_class (c : N) : bool :=
  bool_decide (c ∈ u ".、") || isspace c.

(** [r'第[0-9一二三四五六七八九十百千]+[章回节]'] *)
Definition chapter_marker : matcher :=
  class_then (λ c, bool_decide (c ∈ u "第"))
    (plus_then numeral_class (class_then unit_class accept)).

(** [r'^\d+[\.\s、]'] without its anchor *)
Definition number_separator : matcher :=
  plus_then isdecimal (class_then separator_class accept).

(** [r'^\d+$'] without its leading anchor *)
Definition bare_number : matcher := plus_then isdecimal at_end.

(** ** The link classifier (crawler.py, lines 37-53) *)

Definition exclude_keywords : list str :=
  u <$> ["首页"; "登录"; "注册"; "上一页"; "下一页"; "返回"; "加入书架";
         "投票"; "留言"; "下载"; "更多"; "直达"; "底部"]%string.

Definition is_chapter_link (text href : str) : bool :=
  if existsb (λ k, contains k text) exclude_keywords then false
  else if re_search chapter_marker text then true
  else if re_at_start number_separator text then true
  else if re_at_start bare_number text then true
  else bool_decide (2 < length text)%nat.

End Classifier.

(** ** Parsed pages *)

(** A node of the tree BeautifulSoup builds: a run of text, or an element
    with its name, the attributes the crawler reads ([id] and [class] through
    [select], [href] through [get]) and its children in document order. *)
#[local] Unset Elimination Schemes.
Inductive node : Type :=
| NavigableString (s : str)
| Tag (name : str) (id : option str) (classes : list str)
      (href : option str) (contents : list node).
#[local] Set Elimination Schemes.

(** Every node below [n], in document order; [n] itself is not included. *)
Fixpoint descendants (n : node) : list node :=
  match n with
  | NavigableString _ => []
  | Tag _ _ _ _ cs => flat_map (λ c, c :: descendants c) cs
  end.

Definition has_name (name : str) (n : node) : bool :=
  match n with
  | Tag name' _ _ _ _ => bool_decide (name' = name)
  | NavigableString _ => false
  end.

(** [n.find_all(name)] *)
Definition find_all (name : str) (n : node) : list node :=
  List.filter (has_name name) (descendants n).

Definition own_text (n : node) : str :=
  match n with
  | NavigableString s => s
  | Tag _ _ _ _ _ => []
  end.

(** [n.get_text()]: the text of all strings below [n], joined. *)
Definition get_text (n : node) : str := flat_map own_text (descendants n).

(** [n.get('href')]: [None] when the attribute is absent. *)
Definition get_href (n : node) : option str :=
  match n with
  | Tag _ _ _ h _ => h
  | NavigableString _ => None
  end.

Definition has_id (i : str) (n : node) : bool :=
  match n with
  | Tag _ (Some i') _ _ _ => bool_decide (i' = i)
  | _ => false
  end.

Definition has_class (c : str) (n : node) : bool :=
  match n with
  | Tag _ _ cl _ _ => bool_decide (c ∈ cl)
  | NavigableString _ => false
  end.

(** [soup.select(selector)] for the two selector forms the source uses,
    ['#name'] and ['.name']: the matching elements in document order. *)
Definition select (soup : node) (selector : str) : list node :=
  match selector with
  | 35 :: name => List.filter (has_id name) (descendants soup)
  | 46 :: name => List.filter (has_class name) (descendants soup)
  | _ => []
  end.

(** ** Choice of the container (crawler.py, lines 103-128) *)

Definition selectors : list str :=
  u <$> ["#list"; ".list"; ".catalog"; ".chapter-list"; ".book_list";
         ".directory"; ".box_con"; "#chapterlist"]%string.

(** The two variables the scans update. *)
Record choice := {
  best_container : option node;
  max_link_count : nat
}.

(** [if len(links) > max_link_count: ...] *)
Definition consider (st : choice) (container : node) : choice :=
  let links := find_all (u "a") container in
  if bool_decide (max_link_count st < length links)%nat
  then {| best_container := Some container; max_link_count := length links |}
  else st.

(** Every element a selector of the list matches, selector by selector. *)
Definition selector_matches (soup : node) : list node :=
  flat_map (select soup) selectors.

(** Lines 111-116: the loop over the selectors. *)
Definition selector_scan (soup : node) : choice :=
  foldl (λ st selector, foldl consider st (select soup selector))
        {| best_container := None; max_link_count := 0 |} selectors.

(** Lines 120-126: the loop over every [div]. *)
Definition div_scan (soup : node) (st : choice) : choice :=
  foldl (λ st div,
           if bool_decide (20 < length (find_all (u "a") div))%nat
           then consider st div else st)
        st (find_all (u "div") soup).

(** [if not best_container:] (a [Tag] is always true, so this is the test
    [best_container is None]). *)
Definition div_scan_performed (soup : node) : bool :=
  match best_container (selector_scan soup) with
  | None => true
  | Some _ => false
  end.

Definition choose_container (soup : node) : option node :=
  let st := selector_scan soup in
  best_container (if div_scan_performed soup then div_scan soup st else st).

(** Line 128 *)
Definition target_links (soup : node) : list node :=
  match choose_container soup with
  | Some container => find_all (u "a") container
  | None => find_all (u "a") soup
  end.

(** ** Exceptions *)

(** The result of a computation that may raise. *)
Inductive exn (A : Type) : Type :=
| Ok (a : A)
| Raise.
Arguments Ok {A} a.
Arguments Raise {A}.

#[global] Instance exn_ret : MRet exn := λ A a, Ok a.
#[global] Instance exn_bind : MBind exn := λ A B f m,
  match m with
  | Ok a => f a
  | Raise => Raise
  end.

(** A [for] loop over [l] whose body may raise, threading the loop's
    variables [s]. *)
Fixpoint for_each {A S : Type} (body : S → A → exn S) (s : S) (l : list A)
  : exn S :=
  match l with
  | [] => Ok s
  | x :: r => s' ← body s x; for_each body s' r
  end.

(** ** The outside world *)

(** What a crawl obtains from outside the source file.
    - [requests_get n url] is the body of the [try] block of [fetch_url]
      (lines 20-32: the request, the repair of the encoding, the decoding)
      run on [url] when [n] requests were made before it in this run: the
      text it returns, or the exception it raises. The network may answer
      the same URL differently every time.
    - [BeautifulSoup html] is the parse of a page (or the parser raising).
    - [urljoin base href] is the resolution of a link, which raises on a
      malformed URL. *)
Class Web := {
  requests_get : nat → str → exn str;
  BeautifulSoup : str → exn node;
  urljoin : str → str → exn str
}.

(** ** The catalog walker (crawler.py, lines 18-35 and 55-162) *)

(** [{'title': ..., 'url': ...}] *)
Record chapter := {
  title : str;
  url : str
}.

#[global] Instance chapter_eq_dec : EqDecision chapter.
Proof. solve_decision. Defined.

(** What one extraction pass did: the page, its parse, and the chapters the
    pass accepted ([page_chapters] at line 144). *)
Record pass := {
  pass_url : str;
  pass_soup : node;
  pass_chapters : list chapter
}.

(** The variables of [parse_chapters], and two logs that are not program
    variables: [fetched], the URLs [fetch_url] was called on, oldest first,
    and [passes], the extraction passes completed, oldest first. *)
Record state := {
  all_chapters : list chapter;
  visited_urls : gset str;
  urls_to_visit : list str;
  page_count : nat;
  fetched : list str;
  passes : list pass
}.

(** How a statement ends: normally, or by an exception that leaves
    [parse_chapters]; each with the state reached. *)
Inductive outcome : Type :=
| Normal (st : state)
| Exception (st : state).

Definition final (o : outcome) : state :=
  match o with
  | Normal st | Exception st => st
  end.

(** What the caller of [parse_chapters] receives. *)
Definition returned (o : outcome) : exn (list chapter) :=
  match o with
  | Normal st => Ok (all_chapters st)
  | Exception _ => Raise
  end.

Definition max_pages : nat := 50.

Section Walker.
Context `{Unicode} `{Web}.

(** [fetch_url] called as the request number [n] of the run: every
    exception of the [try] block becomes [None]. *)
Definition fetch_url (n : nat) (url : str) : option str :=
  match requests_get n url with
  | Ok text => Some text
  | Raise => None
  end.

(** [html] when [if not html] lets it through: fetched and not empty. *)
Definition usable (html : option str) : option str :=
  match html with
  | Some text => if truthy text then Some text else None
  | None => None
  end.

(** Lines 73-80: the link to the full catalog, if the start page has one. *)
Fixpoint find_more_link (start_url : str) (anchors : list node)
  : exn (option str) :=
  match anchors with
  | [] => Ok None
  | a :: rest =>
    let text := strip (get_text a) in
    if contains (u "查看更多") text || contains (u "全部章节") text
       || contains (u "完整目录") text
    then
      match get_href a with
      | Some href =>
        if truthy href && negb (startswith (u "javascript") href)
           && negb (bool_decide (href = u "#"))
        then more_link ← urljoin start_url href; Ok (Some more_link)
        else find_more_link start_url rest
      | None => find_more_link start_url rest
      end
    else find_more_link start_url rest
  end.

(** [any(c['url'] == full_url for c in chapters)] *)
Definition any_url (full_url : str) (chapters : list chapter) : bool :=
  existsb (λ c, bool_decide (url c = full_url)) chapters.

(** Lines 132-142: the body of the loop over [target_links]. *)
Definition extract_link (current_url : str) (all_chapters : list chapter)
    (page_chapters : list chapter) (a : node) : exn (list chapter) :=
  let text := strip (get_text a) in
  match get_href a with
  | Some href =>
    if truthy text && truthy href then
      if is_chapter_link text href then
        full_url ← urljoin current_url href;
        if negb (any_url full_url all_chapters)
           && negb (any_url full_url page_chapters)
        then Ok (page_chapters ++ [{| title := text; url := full_url |}])
        else Ok page_chapters
      else Ok page_chapters
    else Ok page_chapters
  | None => Ok page_chapters
  end.

(** Lines 130-142: one extraction pass. *)
Definition extraction_pass (current_url : str) (all_chapters : list chapter)
    (links : list node) : exn (list chapter) :=
  for_each (extract_link current_url all_chapters) [] links.

(** Lines 148-154: the first link to a next page. *)
Fixpoint find_next_page (current_url : str) (anchors : list node)
  : exn (option str) :=
  match anchors with
  | [] => Ok None
  | a :: rest =>
    if contains (u "下一页") (get_text a) then
      match get_href a with
      | Some href =>
        if truthy href
        then next_page_url ← urljoin current_url href; Ok (Some next_page_url)
        else find_next_page current_url rest
      | None => find_next_page current_url rest
      end
    else find_next_page current_url rest
  end.

(** Lines 156-157 *)
Definition enqueue (next_page_url : option str) (visited : gset str)
    (queue : list str) : list str :=
  match next_page_url with
  | Some next =>
    if truthy next && negb (bool_decide (next ∈ visited))
    then queue ++ [next] else queue
  | None => queue
  end.

(** Lines 99-157: the work on a page that was fetched, in state [st] (the
    page already counted and marked visited). *)
Definition process_page (current_url html : str) (st : state) : outcome :=
  match BeautifulSoup html with
  | Raise => Exception st
  | Ok soup =>
    match extraction_pass current_url (all_chapters st) (target_links soup) with
    | Raise => Exception st
    | Ok page_chapters =>
      let st1 :=
        {| all_chapters := all_chapters st ++ page_chapters;
           visited_urls := visited_urls st;
           urls_to_visit := urls_to_visit st;
           page_count := page_count st;
           fetched := fetched st;
           passes := passes st ++ [{| pass_url := current_url;
                                      pass_soup := soup;
                                      pass_chapters := page_chapters |}] |} in
      match find_next_page current_url (find_all (u "a") soup) with
      | Raise => Exception st1
      | Ok next_page_url =>
        Normal
          {| all_chapters := all_chapters st1;
             visited_urls := visited_urls st1;
             urls_to_visit :=
               enqueue next_page_url (visited_urls st1) (urls_to_visit st1);
             page_count := page_count st1;
             fetched := fetched st1;
             passes := passes st1 |}
      end
    end
  end.

(** Lines 88-160: one turn of the [while] loop. *)
Definition loop_body (st : state) : outcome :=
  match urls_to_visit st with
  | [] => Exception st
  | current_url :: rest =>
    if bool_decide (current_url ∈ visited_urls st) then
      Normal
        {| all_chapters := all_chapters st;
           visited_urls := visited_urls st;
           urls_to_visit := rest;
           page_count := page_count st;
           fetched := fetched st;
           passes := passes st |}
    else
      let html := fetch_url (length (fetched st)) current_url in
      let st1 :=
        {| all_chapters := all_chapters st;
           visited_urls := {[current_url]} ∪ visited_urls st;
           urls_to_visit := rest;
           page_count := S (page_count st);
           fetched := fetched st ++ [current_url];
           passes := passes st |} in
      match usable html with
      | None => Normal st1
      | Some html => process_page current_url html st1
      end
  end.

(** Line 87 *)
Definition loop_condition (st : state) : bool :=
  bool_decide (urls_to_visit st ≠ [])
  && bool_decide (page_count st < max_pages)%nat.

(** The [while] loop run for at most [fuel] turns; [None] when the turns
    do not suffice. *)
Fixpoint while_loop (fuel : nat) (st : state) : option outcome :=
  if loop_condition st then
    match fuel with
    | O => None
    | S fuel' =>
      match loop_body st with
      | Normal st' => while_loop fuel' st'
      | Exception st' => Some (Exception st')
      end
    end
  else Some (Normal st).

(** Lines 56-62 and 66: the variables after the first fetch. *)
Definition initial_state (start_url : str) : state :=
  {| all_chapters := [];
     visited_urls := ∅;
     urls_to_visit := [start_url];
     page_count := 0;
     fetched := [start_url];
     passes := [] |}.

(** Lines 82-85: where the walk starts. *)
Definition seed (start_url : str) (more_link : option str) : state :=
  let st := initial_state start_url in
  match more_link with
  | Some link =>
    if truthy link && negb (bool_decide (link = start_url)) then
      {| all_chapters := all_chapters st;
         visited_urls := {[start_url]} ∪ visited_urls st;
         urls_to_visit := [link];
         page_count := page_count st;
         fetched := fetched st;
         passes := passes st |}
    else st
  | None => st
  end.

(** [parse_chapters], its loop run for at most [fuel] turns. *)
Definition parse_chapters_fuel (fuel : nat) (start_url : str)
  : option outcome :=
  let st := initial_state start_url in
  match usable (fetch_url 0 start_url) with
  | None =>
    Some (Normal {| all_chapters := [];
                    visited_urls := visited_urls st;
                    urls_to_visit := urls_to_visit st;
                    page_count := page_count st;
                    fetched := fetched st;
                    passes := passes st |})
  | Some first_html =>
    match BeautifulSoup first_html with
    | Raise => Some (Exception st)
    | Ok first_soup =>
      match find_more_link start_url (find_all (u "a") first_soup) with
      | Raise => Some (Exception st)
      | Ok more_link => while_loop fuel (seed start_url more_link)
      end
    end
  end.

(** The number of turns the loop can still take from [st]: a turn either
    drops a queued URL, or counts a page and queues at most one URL. *)
Definition turns_left (st : state) : nat :=
  2 * (max_pages - page_count st) + length (urls_to_visit st).

(** [parse_chapters(start_url)]; the loop starts with one queued URL and no
    page counted, so that [2 * max_pages + 1] turns suffice
    (see [parse_chapters_terminates]). *)
Definition parse_chapters (start_url : str) : option outcome :=
  parse_chapters_fuel (2 * max_pages + 1) start_url.

End Walker.

(** ** The page fetcher in detail (crawler.py, lines 12-35) *)

Definition get_headers : list (str * str) :=
  [(u "User-Agent",
    u "Mozilla/5.0 (Windows NT 10.0; Win64; x64) AppleWebKit/537.36 (KHTML, like Gecko) Chrome/91.0.4472.124 Safari/537.36");
   (u "Accept",
    u "text/html,application/xhtml+xml,application/xml;q=0.9,image/webp,*/*;q=0.8")].

(** What [fetch_url] reads of a response: the encoding the server declared
    (or [None]), the encoding guessed from the bytes (or [None]), and the
    bytes. *)
Record response := {
  encoding : option str;
  apparent_encoding : option str;
  content : list N
}.

(** The library under [fetch_url].
    - [get n url headers timeout] is [requests.get(url, headers=headers,
      timeout=timeout)] made as request number [n] of the run: the
      response, or the exception raised.
    - [text_of r] is [r.text], the bytes of [r] decoded under the encoding
      of [r], undecodable bytes replaced.
    - [decode_gbk bytes] is [bytes.decode('gbk')], which raises on bytes
      that are not GBK. *)
Class Transport := {
  get : nat → str → list (str * str) → nat → exn response;
  text_of : response → str;
  decode_gbk : list N → exn str
}.

Section Fetcher.
Context `{Transport}.

(** Lines 22-23 *)
Definition repair_encoding (r : response) : response :=
  if bool_decide (encoding r = Some (u "ISO-8859-1"))
  then {| encoding := apparent_encoding r;
          apparent_encoding := apparent_encoding r;
          content := content r |}
  else r.

(** Lines 20-32: the [try] block of [fetch_url]. The string searched for at
    line 25 is the empty string. *)
Definition try_block (n : nat) (url : str) : exn str :=
  response ← get n url get_headers 15%nat;
  let response := repair_encoding response in
  if truthy (text_of response) && contains [] (text_of response) then
    match decode_gbk (content response) with
    | Ok content => Ok content
    | Raise => Ok (text_of response)
    end
  else Ok (text_of response).

(** The world of a crawl over this fetcher. *)
Definition fetcher_web (parse : str → exn node)
    (join : str → str → exn str) : Web :=
  {| requests_get := try_block; BeautifulSoup := parse; urljoin := join |}.

End Fetcher.

(** ** The driver (crawler.py, lines 164-174) and [json.dumps] *)

(** One digit of [format(n, '04x')]. *)
Definition hex_digit (d : N) : N := if d <? 10 then 48 + d else 87 + d.

(** ['{0:04x}'.format(n)], for [n] below 65536. *)
Definition hex4 (n : N) : str :=
  hex_digit <$> [(n / 4096) `mod` 16; (n / 256) `mod` 16; (n / 16) `mod` 16;
                 n `mod` 16].

(** The characters the pattern [ESCAPE] of [json.encoder] matches: the
    control characters, the backslash and the quotation mark. They are the
    keys of [ESCAPE_DCT]. *)
Definition escaped (c : N) : bool := (c <? 32) || (c =? 92) || (c =? 34).

(** [ESCAPE_DCT[c]] for a key [c]: a short escape, or [\u00XX]. *)
Definition ESCAPE_DCT (c : N) : str :=
  if c =? 92 then u "\\"
  else if c =? 34 then [92; 34]
  else if c =? 8 then u "\b"
  else if c =? 12 then u "\f"
  else if c =? 10 then u "\n"
  else if c =? 13 then u "\r"
  else if c =? 9 then u "\t"
  else u "\u" ++ hex4 c.

(** [py_encode_basestring], the encoder of strings under
    [ensure_ascii=False]. *)
Definition py_encode_basestring (s : str) : str :=
  [34] ++ flat_map (λ c, if escaped c then ESCAPE_DCT c else [c]) s ++ [34].

(** The characters the pattern [ESCAPE_ASCII] matches: the backslash, the
    quotation mark, and everything outside the range from space to tilde. *)
Definition escaped_ascii (c : N) : bool :=
  (c =? 92) || (c =? 34) || negb ((32 <=? c) && (c <=? 126)).

(** [replace] of [py_encode_basestring_ascii]: the entry of [ESCAPE_DCT],
    or [\uXXXX], or a surrogate pair above the basic plane. *)
Definition replace_ascii (c : N) : str :=
  if escaped c then ESCAPE_DCT c
  else if c <? 65536 then u "\u" ++ hex4 c
  else
    let n := c - 65536 in
    let s1 := N.lor 55296 (N.land (N.shiftr n 10) 1023) in
    let s2 := N.lor 56320 (N.land n 1023) in
    u "\u" ++ hex4 s1 ++ u "\u" ++ hex4 s2.

(** [py_encode_basestring_ascii], the encoder of strings by default. *)
Definition py_encode_basestring_ascii (s : str) : str :=
  [34] ++ flat_map (λ c, if escaped_ascii c then replace_ascii c else [c]) s
  ++ [34].

(** [sep.join(items)] *)
Fixpoint join (sep : str) (items : list str) : str :=
  match items with
  | [] => []
  | x :: rest =>
    match rest with
    | [] => x
    | _ :: _ => x ++ sep ++ join sep rest
    end
  end.

(** [json.dumps(c, ensure_ascii=False)] for a chapter [c] *)
Definition dumps_chapter (c : chapter) : str :=
  u "{" ++ py_encode_basestring (u "title") ++ u ": "
  ++ py_encode_basestring (title c) ++ u ", "
  ++ py_encode_basestring (u "url") ++ u ": "
  ++ py_encode_basestring (url c) ++ u "}".

(** [json.dumps(chapters, ensure_ascii=False)] *)
Definition dumps_chapters (chapters : list chapter) : str :=
  u "[" ++ join (u ", ") (dumps_chapter <$> chapters) ++ u "]".

(** [json.dumps({'error': message})] *)
Definition dumps_error (message : str) : str :=
  u "{" ++ py_encode_basestring_ascii (u "error") ++ u ": "
  ++ py_encode_basestring_ascii message ++ u "}".

(** Whether [print] can write a text to standard output, which line 10
    sets to UTF-8: a surrogate code point has no encoding. *)
Definition utf8_encodable (s : str) : bool :=
  forallb (λ c, negb ((55296 <=? c) && (c <=? 57343))) s.

Section Driver.
Context `{Unicode} `{Web}.

(** Lines 164-174 run with [sys.argv = argv]: what is printed, and the exit
    status of the process. [str_e st] is [str(e)] for the exception caught
    at line 173 when [parse_chapters] ended in state [st]: the exception
    that left [parse_chapters], or the one [print] raises at line 172 on a
    text standard output cannot encode. *)
Definition main (str_e : state → str) (argv : list str)
  : option (str * nat) :=
  match argv with
  | _ :: target_url :: _ =>
    o ← parse_chapters target_url;
    Some (match o with
          | Normal st =>
            if utf8_encodable (dumps_chapters (all_chapters st))
            then dumps_chapters (all_chapters st) ++ [10]
            else dumps_error (str_e st) ++ [10]
          | Exception st => dumps_error (str_e st) ++ [10]
          end, 0%nat)
  | _ => Some (dumps_error (u "No URL provided") ++ [10], 1%nat)
  end.

End Driver.

(** A reader of the strings [py_encode_basestring] writes: the text after
    the opening quotation mark is read up to the closing one, escapes
    undone; the result is the string read and the text left. *)
Definition unhex_digit (h : N) : N := if h <? 58 then h - 48 else h - 87.

Definition unescape (e : N) : N :=
  if e =? 98 then 8 else if e =? 102 then 12 else if e =? 110 then 10
  else if e =? 114 then 13 else if e =? 116 then 9 else e.

Fixpoint read_body (s : str) : option (str * str) :=
  match s with
  | [] => None
  | c :: r =>
    if c =? 34 then Some ([], r)
    else if c =? 92 then
      match r with
      | [] => None
      | e :: r' =>
        if e =? 117 then
          match r' with
          | h1 :: h2 :: h3 :: h4 :: r'' =>
            '(t, rest) ← read_body r'';
            Some ((unhex_digit h1 * 4096 + unhex_digit h2 * 256
                   + unhex_digit h3 * 16 + unhex_digit h4) :: t, rest)
          | _ => None
          end
        else '(t, rest) ← read_body r'; Some (unescape e :: t, rest)
      end
    else '(t, rest) ← read_body r; Some (c :: t, rest)
  end.

Definition read_string (s : str) : option (str * str) :=
  match s with
  | 34 :: body => read_body body
  | _ => None
  end.

(** What follows the first chapter of a printed array. *)
Definition array_tail (chapters : list chapter) : str :=
  flat_map (λ c, u ", " ++ dumps_chapter c) chapters ++ u "]".

(** ** The properties in the words of the specification *)

(** [k] occurs in [s]: the substring test of the exclusion rule. *)
Definition occurs_in (k s : str) : Prop := ∃ pre post, s = pre ++ k ++ post.

Section Words.
Context `{Unicode}.

(** A digit, as the patterns of the classifier understand it. *)
Definition digit (c : N) : Prop := (48 ≤ c ≤ 57) ∨ uni_digit c = true.

(** Whitespace, as the patterns and [strip] understand it. *)
Definition whitespace (c : N) : Prop :=
  c ∈ [32; 9; 10; 11; 12; 13] ∨ uni_space c = true.

(** 第, then Arabic digits or CJK numerals, then 章, 回 or 节, somewhere
    in the text. *)
Definition has_chapter_marker (text : str) : Prop :=
  ∃ pre ds c post,
    text = pre ++ u "第" ++ ds ++ c :: post
    ∧ ds ≠ []
    ∧ Forall (λ d, (48 ≤ d ≤ 57) ∨ d ∈ u "一二三四五六七八九十百千") ds
    ∧ c ∈ u "章回节".

(** The text starts with digits followed by a period, whitespace or the
    ideographic comma. *)
Definition starts_with_number (text : str) : Prop :=
  ∃ ds c post,
    text = ds ++ c :: post
    ∧ ds ≠ []
    ∧ Forall digit ds
    ∧ (c ∈ u "." ∨ whitespace c ∨ c ∈ u "、").

(** The text is a number: digits and nothing else. *)
Definition all_digits (text : str) : Prop := text ≠ [] ∧ Forall digit text.

End Words.

(** The number of anchors below an element: [len(links)]. *)
Definition link_count (n : node) : nat := length (find_all (u "a") n).

(** [a] comes before [b] in [l]. *)
Definition precedes {A : Type} (a b : A) (l : list A) : Prop :=
  ∃ l1 l2 l3, l = l1 ++ a :: l2 ++ b :: l3.

(** [c] is an entry of [l] whose URL does not occur earlier in [l]. *)
Definition first_occurrence (c : chapter) (l : list chapter) : Prop :=
  ∃ pre post, l = pre ++ c :: post ∧ ∀ c', c' ∈ pre → url c' ≠ url c.

(** Deduplication by URL, keeping what comes first: [kept] grows by every
    entry of [l] whose URL it does not hold yet. *)
Definition keep (kept : list chapter) (c : chapter) : list chapter :=
  if existsb (λ c', bool_decide (url c' = url c)) kept then kept
  else kept ++ [c].

Definition first_occurrences (kept l : list chapter) : list chapter :=
  foldl keep kept l.

(** The URLs the page walk fetched: every fetch but the first, which is the
    fetch of the start page for the detection of a catalog link. *)
Definition walk_fetches (st : state) : list str := drop 1 (fetched st).

Section WalkerWords.
Context `{Unicode} `{Web}.

(** The chapter a link stands for when the extraction pass takes it: its
    text and href are not empty and the classifier accepts it. *)
Definition candidate (current_url : str) (a : node) : exn (option chapter) :=
  let text := strip (get_text a) in
  match get_href a with
  | Some href =>
    if truthy text && truthy href && is_chapter_link text href then
      full_url ← urljoin current_url href;
      Ok (Some {| title := text; url := full_url |})
    else Ok None
  | None => Ok None
  end.

(** The chapters the links of a page stand for, in document order, before
    any deduplication. *)
Fixpoint candidates (current_url : str) (links : list node)
  : exn (list chapter) :=
  match links with
  | [] => Ok []
  | a :: rest =>
    c ← candidate current_url a;
    cs ← candidates current_url rest;
    Ok (from_option (λ c, [c]) [] c ++ cs)
  end.

(** What a completed pass produced before deduplication. *)
Definition produced (p : pass) : list chapter :=
  match candidates (pass_url p) (target_links (pass_soup p)) with
  | Ok cs => cs
  | Raise => []
  end.

(** The accumulated chapters are the accepted chapters of the passes, pass
    after pass; they are the first occurrences among everything the passes
    produced; and every pass accepted chapters of links of its page, in
    document order. *)
Definition chapters_inv (st : state) : Prop :=
  all_chapters st = concat (pass_chapters <$> passes st)
  ∧ all_chapters st = first_occurrences [] (flat_map produced (passes st))
  ∧ ∀ p, p ∈ passes st →
      ∃ links', links' `sublist_of` target_links (pass_soup p)
                ∧ Forall2 (λ a c, candidate (pass_url p) a = Ok (Some c))
                          links' (pass_chapters p).

(** The fetches of a run: the start page first, then the pages of the walk,
    no page twice; a page of the walk is marked visited and counted, and
    every pass is on a page the walk fetched. *)
Definition fetch_inv (start_url : str) (st : state) : Prop :=
  fetched st = start_url :: walk_fetches st
  ∧ NoDup (walk_fetches st)
  ∧ (∀ x, x ∈ walk_fetches st → x ∈ visited_urls st)
  ∧ length (walk_fetches st) = page_count st
  ∧ (page_count st ≤ max_pages)%nat
  ∧ ∀ p, p ∈ passes st → pass_url p ∈ walk_fetches st.


End WalkerWords.

Section CatalogWords.
Context `{Unicode}.


End CatalogWords.

Section ChainWords.
Context `{Unicode} `{Web}.

(** A page of a chain of next-page links: its extraction pass does not
    raise, and its first next-page link resolves to [next]. *)
Definition chain_page (current_url next : str) (soup : node) : Prop :=
  (∀ all, extraction_pass current_url all (target_links soup) ≠ Raise)
  ∧ find_next_page current_url (find_all (u "a") soup) = Ok (Some next).

(** A site whose pages form an unbounded chain of distinct next-page links:
    the pages [chain 0], [chain 1], ... differ from one another, every one
    is served whenever it is requested, and links to the next; the walk
    starts at [chain 0], and the start page, when a catalog link leads away
    from it, is not on the chain. *)
Definition endless_chain (start_url : str) (chain : nat → str) : Prop :=
  (∀ i j, chain i = chain j → i = j)
  ∧ (∀ i, chain i ≠ [])
  ∧ (∀ n i, ∃ html soup,
       usable (fetch_url n (chain i)) = Some html
       ∧ BeautifulSoup html = Ok soup
       ∧ chain_page (chain i) (chain (S i)) soup)
  ∧ (∃ html soup more_link,
       usable (fetch_url 0 start_url) = Some html
       ∧ BeautifulSoup html = Ok soup
       ∧ find_more_link start_url (find_all (u "a") soup) = Ok more_link
       ∧ urls_to_visit (seed start_url more_link) = [chain 0%nat]
       ∧ ∀ i, chain i ∉ visited_urls (seed start_url more_link)).

(** The loop at page [i] of the chain. *)
Definition on_chain (start_url : str) (chain : nat → str) (v0 : gset str)
    (i : nat) (st : state) : Prop :=
  urls_to_visit st = [chain i]
  ∧ page_count st = i
  ∧ fetched st = start_url :: (chain <$> seq 0 i)
  ∧ ∀ x, x ∈ visited_urls st → x ∈ v0 ∨ ∃ j, (j < i)%nat ∧ x = chain j.

End ChainWords.

Section WalkStates.
Context `{Unicode} `{Web}.

(** The states in which the loop of [parse_chapters start_url] evaluates
    its condition: the state after lines 56-85, and the state after every
    turn that ended normally. *)
Inductive walk_state (start_url : str) : state → Prop :=
| walk_start (html : str) (first_soup : node) (more_link : option str) :
    usable (fetch_url 0 start_url) = Some html →
    BeautifulSoup html = Ok first_soup →
    find_more_link start_url (find_all (u "a") first_soup) = Ok more_link →
    walk_state start_url (seed start_url more_link)
| walk_turn (st st' : state) :
    walk_state start_url st →
    loop_condition st = true →
    loop_body st = Normal st' →
    walk_state start_url st'.

(** At most one URL is queued, and a fetch that gave no usable page (it
    failed, or the page is empty) is the last fetch made and leaves the
    queue empty. *)
Definition chain_inv (st : state) : Prop :=
  (length (urls_to_visit st) ≤ 1)%nat
  ∧ ∀ i url,
      fetched st !! i = Some url → usable (fetch_url i url) = None →
      length (fetched st) = S i ∧ urls_to_visit st = [].

End WalkStates.

(** ** Sites for examples *)

(** An interpreter that knows no digits or spaces beyond ASCII. *)
Definition ascii_only : Unicode :=
  {| uni_digit := λ _, false; uni_space := λ _, false |}.

(** A site served from a table: every page with its URL, the text the
    server sends and the parse of that text. Links in the examples are
    absolute URLs in normal form, which [urljoin] returns unchanged. *)
Record page := {
  page_url : str;
  page_html : str;
  page_soup : node
}.

Definition table_web (pages : list page) : Web :=
  {| requests_get := λ _ url,
       match List.find (λ p, bool_decide (page_url p = url)) pages with
       | Some p => Ok (page_html p)
       | None => Raise
       end;
     BeautifulSoup := λ html,
       match List.find (λ p, bool_decide (page_html p = html)) pages with
       | Some p => Ok (page_soup p)
       | None => Raise
       end;
     urljoin := λ _ href, Ok href |}.

(** The root BeautifulSoup returns. *)
Definition document (contents : list node) : node :=
  Tag (u "[document]") None [] None contents.

(** [<a href='href'>text</a>] *)
Definition anchor (href text : string) : node :=
  Tag (u "a") None [] (Some (u href)) [NavigableString (u text)].

(** [<div>...</div>] *)
Definition div (id : option str) (classes : list str) (contents : list node)
  : node :=
  Tag (u "div") id classes None contents.

(** A page whose only selector match holds no link, next to a division of
    21 links:
    [<div id='list'></div><div><a href='http://h/1.html'>第1章</a>...</div>] *)
Definition crowded_div : node :=
  div None [] (replicate 21 (anchor "http://h/1.html" "第1章")).

Definition empty_list_page : node :=
  document [div (Some (u "list")) [] []; crowded_div].

(** A book of one page, [http://h/book/]:
    [<a href='http://h/book/1.html'>第1章</a>
     <a href='http://h/book/2.html'>第2章</a>
     <a href='http://h/book/1.html'>第1章 (新)</a>] *)
Definition plain_site : Web :=
  table_web
    [{| page_url := u "http://h/book/";
        page_html := u "<a href='http://h/book/1.html'>第1章</a><a href='http://h/book/2.html'>第2章</a><a href='http://h/book/1.html'>第1章 (新)</a>";
        page_soup :=
          document [anchor "http://h/book/1.html" "第1章";
                    anchor "http://h/book/2.html" "第2章";
                    anchor "http://h/book/1.html" "第1章 (新)"] |}].



(** A start page with one catalog link, and the catalog it leads to:
    [http://h/book/] is [<a href='http://h/book/all.html'>查看更多章节</a>
    <a href='http://h/book/9.html'>第9章</a>], and
    [http://h/book/all.html] is [<a href='http://h/book/1.html'>第1章</a>]. *)
Definition catalog_anchor : node :=
  anchor "http://h/book/all.html" "查看更多章节".

Definition catalog_site : Web :=
  table_web
    [{| page_url := u "http://h/book/";
        page_html := u "<a href='http://h/book/all.html'>查看更多章节</a><a href='http://h/book/9.html'>第9章</a>";
        page_soup :=
          document [catalog_anchor; anchor "http://h/book/9.html" "第9章"] |};
     {| page_url := u "http://h/book/all.html";
        page_html := u "<a href='http://h/book/1.html'>第1章</a>";
        page_soup := document [anchor "http://h/book/1.html" "第1章"] |}].

(** A catalog of two pages: [http://h/list/] is
    [<div class='list'><a href='http://h/1.html'>第1章</a>
     <a href='http://h/2.html'>第2章</a></div>
     <a href='http://h/list/2'>下一页</a>], and [http://h/list/2] is
    [<div class='list'><a href='http://h/2.html'>第2章</a>
     <a href='http://h/3.html'>第3章</a></div>
     <a href='http://h/list/'>上一页</a>]. *)
Definition paged_site : Web :=
  table_web
    [{| page_url := u "http://h/list/";
        page_html := u "<div class='list'><a href='http://h/1.html'>第1章</a><a href='http://h/2.html'>第2章</a></div><a href='http://h/list/2'>下一页</a>";
        page_soup :=
          document [div None [u "list"]
                        [anchor "http://h/1.html" "第1章";
                         anchor "http://h/2.html" "第2章"];
                    anchor "http://h/list/2" "下一页"] |};
     {| page_url := u "http://h/list/2";
        page_html := u "<div class='list'><a href='http://h/2.html'>第2章</a><a href='http://h/3.html'>第3章</a></div><a href='http://h/list/'>上一页</a>";
        page_soup :=
          document [div None [u "list"]
                        [anchor "http://h/2.html" "第2章";
                         anchor "http://h/3.html" "第3章"];
                    anchor "http://h/list/" "上一页"] |}].

(** A site that never ends: the page at [url] is
    [<a href='urln'>下一页</a>], a link to the URL one [n] longer. *)
Fixpoint endless_url (i : nat) : str :=
  match i with
  | O => u "http://h/"
  | S i' => endless_url i' ++ u "n"
  end.

Definition next_link_page (href : str) : node :=
  document [Tag (u "a") None [] (Some href) [NavigableString (u "下一页")]].

Definition endless_site : Web :=
  {| requests_get := λ _ url,
       Ok (u "<a href='" ++ (url ++ u "n") ++ u "'>下一页</a>");
     BeautifulSoup := λ html,
       Ok (next_link_page (take (length html - 18) (drop 9 html)));
     urljoin := λ _ href, Ok href |}.

(** A catalog whose next page cannot be fetched: [http://h/list/] is
    [<a href='http://h/1.html'>第1章</a><a href='http://h/list/2'>下一页</a>],
    and the server has no page [http://h/list/2]. *)
Definition broken_next_site : Web :=
  table_web
    [{| page_url := u "http://h/list/";
        page_html := u "<a href='http://h/1.html'>第1章</a><a href='http://h/list/2'>下一页</a>";
        page_soup :=
          document [anchor "http://h/1.html" "第1章";
                    anchor "http://h/list/2" "下一页"] |}].

(** A server of pages in ASCII that declares UTF-8: the text of a response
    is its bytes, and so is their decoding as GBK. *)
Definition ascii_transport : Transport :=
  {| get := λ _ _ _ _,
       Ok {| encoding := Some (u "utf-8");
             apparent_encoding := Some (u "ascii");
             content := u "<a href='http://h/1.html'>1</a>" |};
     text_of := content;
     decode_gbk := λ bytes, Ok bytes |}.

(** * Properties *)

(** ** The definitions on small inputs *)

Example literal_code_points : u "第12章、" = [31532; 49; 50; 31456; 12289].
Proof. reflexivity. Qed.

Example len_counts_code_points : length (u "你好") = 2%nat.
Proof. reflexivity. Qed.

Example two_characters_rejected :
  @is_chapter_link ascii_only (u "你好") (u "/1.html") = false.
Proof. reflexivity. Qed.

Example three_characters_accepted :
  @is_chapter_link ascii_only (u "楔子一") (u "/1.html") = true.
Proof. reflexivity. Qed.

Example number_before_newline_accepted :
  @is_chapter_link ascii_only (u "12" ++ [10]) (u "/12.html") = true.
Proof. reflexivity. Qed.

Example marker_needs_numerals :
  @re_search (@chapter_marker) (u "第章") = false
  ∧ @re_search (@chapter_marker) (u "正文 第一百二十回") = true.
Proof. split; reflexivity. Qed.

Example strip_both_ends : @strip ascii_only (u "  第1章 ") = u "第1章".
Proof. reflexivity. Qed.

Example get_text_joins :
  get_text (Tag (u "a") None [] None
              [NavigableString (u "第1章"); Tag (u "b") None [] None
                                               [NavigableString (u " 启程")]])
  = u "第1章 启程".
Proof. reflexivity. Qed.

Example select_by_class :
  select (document [div None [u "box"; u "list"] []; div (Some (u "list")) [] []])
         (u ".list")
  = [div None [u "box"; u "list"] []].
Proof. reflexivity. Qed.

Example densest_match_wins :
  choose_container
    (document [div (Some (u "list")) [] [anchor "http://h/0.html" "序"];
               div None [u "catalog"] [anchor "http://h/1.html" "第1章";
                                       anchor "http://h/2.html" "第2章"]])
  = Some (div None [u "catalog"] [anchor "http://h/1.html" "第1章";
                                  anchor "http://h/2.html" "第2章"]).
Proof. reflexivity. Qed.

Example paged_crawl :
  (λ o, (url <$> all_chapters (final o), fetched (final o),
         page_count (final o)))
    <$> @parse_chapters ascii_only paged_site (u "http://h/list/")
  = Some ([u "http://h/1.html"; u "http://h/2.html"; u "http://h/3.html"],
          [u "http://h/list/"; u "http://h/list/"; u "http://h/list/2"],
          2%nat).
Proof. vm_compute. reflexivity. Qed.

Example redirected_crawl :
  (λ o, (url <$> all_chapters (final o), fetched (final o)))
    <$> @parse_chapters ascii_only catalog_site (u "http://h/book/")
  = Some ([u "http://h/book/1.html"],
          [u "http://h/book/"; u "http://h/book/all.html"]).
Proof. vm_compute. reflexivity. Qed.

(** ** Strings and patterns *)

Lemma startswith_spec (p s : str) :
  startswith p s = true ↔ ∃ post, s = p ++ post.
Proof.
  revert s. induction p as [|a p IH]; intros s; simpl.
  - split; [intros _; by exists s | done].
  - destruct s as [|b s].
    + split; [done | intros [post Hp]; discriminate].
    + rewrite andb_true_iff, N.eqb_eq, IH. split.
      * intros [-> [post ->]]. by exists post.
      * intros [post Hp]. injection Hp as -> ->. split; [done | by exists post].
Qed.

Lemma contains_spec (k s : str) : contains k s = true ↔ occurs_in k s.
Proof.
  unfold occurs_in. induction s as [|b s IH].
  - simpl. rewrite orb_false_r, startswith_spec. split.
    + intros [post Hp]. by exists [], post.
    + intros [pre [post Hp]]. destruct pre; [by exists post | discriminate].
  - cbn [contains]. rewrite orb_true_iff, startswith_spec, IH. split.
    + intros [[post ->] | [pre [post ->]]].
      * by exists [], post.
      * by exists (b :: pre), post.
    + intros [pre [post Hp]]. destruct pre as [|b' pre].
      * left. by exists post.
      * right. injection Hp as -> ->. by exists pre, post.
Qed.

Lemma class_then_spec (cls : N → bool) (k : matcher) (s : str) :
  class_then cls k s = true ↔ ∃ c r, s = c :: r ∧ cls c = true ∧ k r = true.
Proof.
  destruct s as [|c r]; simpl.
  - split; [done | by intros (? & ? & ? & _)].
  - rewrite andb_true_iff. split.
    + intros [? ?]. by exists c, r.
    + intros (? & ? & [= <- <-] & ? & ?). done.
Qed.

Lemma plus_then_spec (cls : N → bool) (k : matcher) (s : str) :
  plus_then cls k s = true ↔
  ∃ ds rest, s = ds ++ rest ∧ ds ≠ []
             ∧ Forall (λ d, cls d = true) ds ∧ k rest = true.
Proof.
  induction s as [|c r IH]; simpl.
  - split; [done |]. intros (ds & rest & Hs & Hne & _). by destruct ds.
  - rewrite andb_true_iff, orb_true_iff, IH. split.
    + intros [Hc [Hk | (ds & rest & -> & Hne & Hall & Hk)]].
      * exists [c], r. repeat split; auto.
      * exists (c :: ds), rest. repeat split; auto.
    + intros (ds & rest & Hs & Hne & Hall & Hk).
      destruct ds as [|d ds]; [done |]. injection Hs as -> ->.
      apply Forall_cons in Hall as [Hc Hall]. split; [done |].
      destruct ds as [|d' ds]; [by left | right].
      exists (d' :: ds), rest. done.
Qed.

Lemma re_search_spec (m : matcher) (s : str) :
  re_search m s = true ↔ ∃ pre rest, s = pre ++ rest ∧ m rest = true.
Proof.
  induction s as [|c r IH]; cbn [re_search].
  - rewrite orb_false_r. split.
    + intros Hm. by exists [], [].
    + intros (pre & rest & Hs & Hm). symmetry in Hs.
      apply app_eq_nil in Hs as [-> ->]. done.
  - rewrite orb_true_iff, IH. split.
    + intros [Hm | (pre & rest & -> & Hm)].
      * by exists [], (c :: r).
      * by exists (c :: pre), rest.
    + intros (pre & rest & Hs & Hm). destruct pre as [|c' pre].
      * left. simpl in Hs. by subst.
      * right. injection Hs as -> ->. by exists pre, rest.
Qed.

Lemma at_end_spec (s : str) : at_end s = true ↔ s = [] ∨ s = [10].
Proof.
  destruct s as [|c [|c' r]]; simpl.
  - split; [by left | done].
  - rewrite N.eqb_eq. split.
    + intros ->. by right.
    + intros [? | ?]; congruence.
  - split; [done | intros [? | ?]; discriminate].
Qed.

Lemma ascii_digit_spec (c : N) : ascii_digit c = true ↔ 48 ≤ c ≤ 57.
Proof. unfold ascii_digit. rewrite andb_true_iff, !N.leb_le. done. Qed.

Section ClassifierFacts.
Context `{Unicode}.

Lemma isdecimal_spec (c : N) : isdecimal c = true ↔ digit c.
Proof.
  unfold isdecimal, digit. by rewrite orb_true_iff, ascii_digit_spec.
Qed.

Lemma isspace_spec (c : N) : isspace c = true ↔ whitespace c.
Proof.
  unfold isspace, whitespace, ascii_space.
  by rewrite orb_true_iff, bool_decide_eq_true.
Qed.

Lemma numeral_class_spec (c : N) :
  numeral_class c = true ↔
  (48 ≤ c ≤ 57) ∨ c ∈ u "一二三四五六七八九十百千".
Proof.
  unfold numeral_class.
  by rewrite orb_true_iff, ascii_digit_spec, bool_decide_eq_true.
Qed.

Lemma separator_class_spec (c : N) :
  separator_class c = true ↔ c ∈ u "." ∨ whitespace c ∨ c ∈ u "、".
Proof.
  unfold separator_class.
  rewrite orb_true_iff, bool_decide_eq_true, isspace_spec.
  change (u ".、") with (u "." ++ u "、"). rewrite elem_of_app. tauto.
Qed.

Lemma chapter_marker_spec (text : str) :
  re_search chapter_marker text = true ↔ has_chapter_marker text.
Proof.
  unfold has_chapter_marker, chapter_marker. rewrite re_search_spec. split.
  - intros (pre & rest & -> & Hm).
    apply class_then_spec in Hm as (c0 & r0 & -> & Hc0 & Hm).
    apply bool_decide_eq_true in Hc0.
    apply plus_then_spec in Hm as (ds & r1 & -> & Hne & Hds & Hm).
    apply class_then_spec in Hm as (c & post & -> & Hc & _).
    apply bool_decide_eq_true in Hc.
    exists pre, ds, c, post. repeat split; [| done | | done].
    + change (u "第") with [31532] in *. apply list_elem_of_singleton in Hc0.
      by subst.
    + eapply Forall_impl; [exact Hds |]. intros d. apply numeral_class_spec.
  - intros (pre & ds & c & post & -> & Hne & Hds & Hc).
    exists pre, (u "第" ++ ds ++ c :: post). split; [done |].
    change (u "第") with [31532]. apply class_then_spec.
    exists 31532, (ds ++ c :: post). repeat split.
    apply plus_then_spec. exists ds, (c :: post). repeat split; [done | |].
    + eapply Forall_impl; [exact Hds |]. intros d. apply numeral_class_spec.
    + apply class_then_spec. exists c, post. repeat split.
      by apply bool_decide_eq_true.
Qed.

Lemma number_separator_spec (text : str) :
  re_at_start number_separator text = true ↔ starts_with_number text.
Proof.
  unfold re_at_start, number_separator, starts_with_number.
  rewrite plus_then_spec. split.
  - intros (ds & rest & -> & Hne & Hds & Hm).
    apply class_then_spec in Hm as (c & post & -> & Hc & _).
    exists ds, c, post. repeat split; [done | | by apply separator_class_spec].
    eapply Forall_impl; [exact Hds |]. intros d. apply isdecimal_spec.
  - intros (ds & c & post & -> & Hne & Hds & Hc).
    exists ds, (c :: post). repeat split; [done | |].
    + eapply Forall_impl; [exact Hds |]. intros d. apply isdecimal_spec.
    + apply class_then_spec. exists c, post. repeat split.
      by apply separator_class_spec.
Qed.

(** [^\d+$] accepts a number, and a number followed by one newline; the
    second form also starts with a number and a separator. *)
Lemma bare_number_spec (text : str) :
  re_at_start bare_number text = true ↔
  all_digits text ∨ ∃ ds, text = ds ++ [10] ∧ all_digits ds.
Proof.
  unfold re_at_start, bare_number, all_digits. rewrite plus_then_spec. split.
  - intros (ds & rest & -> & Hne & Hds & Hm).
    assert (Forall digit ds) as Hds'.
    { eapply Forall_impl; [exact Hds |]. intros d. apply isdecimal_spec. }
    apply at_end_spec in Hm as [-> | ->].
    + left. by rewrite app_nil_r.
    + right. by exists ds.
  - intros [[Hne Hds] | (ds & -> & Hne & Hds)].
    + exists text, []. rewrite app_nil_r. repeat split; [done |].
      eapply Forall_impl; [exact Hds |]. intros d. apply isdecimal_spec.
    + exists ds, [10]. repeat split; [done |].
      eapply Forall_impl; [exact Hds |]. intros d. apply isdecimal_spec.
Qed.

Lemma excluded_spec (text : str) :
  existsb (λ k, contains k text) exclude_keywords = true ↔
  ∃ k, k ∈ exclude_keywords ∧ occurs_in k text.
Proof.
  rewrite existsb_exists. split.
  - intros (k & Hin & Hk). exists k. split.
    + by apply list_elem_of_In.
    + by apply contains_spec.
  - intros (k & Hin & Hk). exists k. split.
    + by apply list_elem_of_In.
    + by apply contains_spec.
Qed.

End ClassifierFacts.

(** ** The link classifier *)

Section ClassifierClaims.
Context `{Unicode}.

(** C2. A text that contains a keyword of the exclusion vocabulary is
    rejected whatever the href, also when it matches an inclusion pattern:
    "下一页 第1章" contains a chapter marker and is rejected. *)
Theorem exclusion_precedence :
  (∀ text href k,
     k ∈ exclude_keywords → occurs_in k text →
     is_chapter_link text href = false)
  ∧ (∀ href, has_chapter_marker (u "下一页 第1章")
             ∧ is_chapter_link (u "下一页 第1章") href = false).
Proof.
  assert (∀ text href k,
            k ∈ exclude_keywords → occurs_in k text →
            is_chapter_link text href = false) as Hgen.
  { intros text href k Hk Hocc. unfold is_chapter_link.
    replace (existsb (λ k, contains k text) exclude_keywords) with true; [done |].
    symmetry. apply excluded_spec. by exists k. }
  split; [exact Hgen |]. intros href. split.
  - exists (u "下一页 "), (u "1"), 31456, []. repeat split.
    + done.
    + apply Forall_singleton. left. vm_compute. split; discriminate.
    + vm_compute. apply list_elem_of_here.
  - apply (Hgen _ _ (u "下一页")).
    + vm_compute. do 4 apply list_elem_of_further. apply list_elem_of_here.
    + by exists [], (u " 第1章").
Qed.

(** C3. A text without exclusion keyword is accepted exactly when it has a
    chapter marker, or starts with a number and a separator, or is a
    number, or is longer than two characters; the four examples of the
    specification. *)
Theorem inclusion_rules :
  (∀ text href,
     (∀ k, k ∈ exclude_keywords → ¬ occurs_in k text) →
     is_chapter_link text href = true ↔
     has_chapter_marker text ∨ starts_with_number text
     ∨ all_digits text ∨ (2 < length text)%nat)
  ∧ (∀ href, is_chapter_link (u "第12章 启程") href = true)
  ∧ (∀ href, is_chapter_link (u "123") href = true)
  ∧ (∀ href, is_chapter_link (u "1. 启程") href = true)
  ∧ (∀ href, is_chapter_link (u "更多") href = false).
Proof.
  split; [| split; [| split; [| split]]].
  - intros text href Hfree. unfold is_chapter_link.
    destruct (existsb _ exclude_keywords) eqn:Hex.
    { apply excluded_spec in Hex as (k & Hk & Hocc). by destruct (Hfree k). }
    destruct (re_search chapter_marker text) eqn:Hmark.
    { apply chapter_marker_spec in Hmark. tauto. }
    destruct (re_at_start number_separator text) eqn:Hsep.
    { apply number_separator_spec in Hsep. tauto. }
    destruct (re_at_start bare_number text) eqn:Hnum.
    { apply bare_number_spec in Hnum as [Hnum | (ds & -> & Hne & Hds)];
        [tauto |].
      rewrite <- not_true_iff_false, number_separator_spec in Hsep.
      destruct Hsep. exists ds, 10, []. repeat split; [done.. |].
      right; left. left. apply list_elem_of_further, list_elem_of_further,
        list_elem_of_here. }
    rewrite bool_decide_eq_true.
    rewrite <- not_true_iff_false in Hmark, Hsep, Hnum.
    rewrite chapter_marker_spec in Hmark.
    rewrite number_separator_spec in Hsep.
    rewrite bare_number_spec in Hnum. tauto.
  - intros href. reflexivity.
  - intros href. unfold is_chapter_link.
    change (existsb _ exclude_keywords) with false.
    change (re_search chapter_marker (u "123")) with false.
    cbv beta iota.
    destruct (re_at_start number_separator (u "123")); [done |].
    replace (re_at_start bare_number (u "123")) with true; [done |].
    symmetry. apply bare_number_spec. left. split; [done |].
    repeat apply Forall_cons_2; try apply Forall_nil_2;
      left; vm_compute; split; discriminate.
  - intros href. unfold is_chapter_link.
    change (existsb _ exclude_keywords) with false.
    change (re_search chapter_marker (u "1. 启程")) with false.
    cbv beta iota.
    replace (re_at_start number_separator (u "1. 启程")) with true; [done |].
    symmetry. apply number_separator_spec.
    exists (u "1"), 46, (u " 启程"). repeat split; [done | |].
    + apply Forall_singleton. left. vm_compute. split; discriminate.
    + left. vm_compute. apply list_elem_of_here.
  - intros href. reflexivity.
Qed.

End ClassifierClaims.

(** ** The choice of the container *)

Lemma foldl_flat_map {A B C : Type} (f : A → C → A) (g : B → list C)
    (a : A) (l : list B) :
  foldl (λ a x, foldl f a (g x)) a l = foldl f a (flat_map g l).
Proof.
  revert a. induction l as [|x l IH]; intros a; simpl; [done |].
  by rewrite foldl_app, IH.
Qed.

Lemma foldl_if_filter {A C : Type} (f : A → C → A) (p : C → bool)
    (a : A) (l : list C) :
  foldl (λ a x, if p x then f a x else a) a l = foldl f a (List.filter p l).
Proof.
  revert a. induction l as [|x l IH]; intros a; simpl; [done |].
  destruct (p x); simpl; by rewrite IH.
Qed.

(** What a scan leaves in the two variables: the count never decreases and
    bounds every element scanned; the container is either untouched, or the
    first element scanned that reaches the final count. *)
Lemma foldl_consider (st : choice) (l : list node) :
  let st' := foldl consider st l in
  Forall (λ c, link_count c ≤ max_link_count st')%nat l
  ∧ (st' = st
     ∨ ∃ pre c post,
         l = pre ++ c :: post
         ∧ st' = {| best_container := Some c; max_link_count := link_count c |}
         ∧ (max_link_count st < link_count c)%nat
         ∧ Forall (λ c', link_count c' < link_count c)%nat pre).
Proof.
  revert st. induction l as [|x l IH]; intros st; simpl.
  { split; [constructor | by left]. }
  specialize (IH (consider st x)). simpl in IH. destruct IH as [Hall Hcase].
  assert (max_link_count (consider st x)
          ≤ max_link_count (foldl consider (consider st x) l))%nat as Hmono.
  { destruct Hcase as [-> | (pre & c & post & _ & -> & Hlt & _)]; simpl; lia. }
  assert (link_count x ≤ max_link_count (consider st x))%nat as Hx.
  { unfold consider. fold (link_count x). case_bool_decide; simpl; lia. }
  split; [constructor; [lia | done] |].
  unfold consider in Hcase, Hmono, Hx |- *. fold (link_count x) in *.
  case_bool_decide as Hgt.
  - right. destruct Hcase as [-> | (pre & c & post & -> & -> & Hlt & Hpre)].
    + exists [], x, l. repeat split; [done | constructor].
    + simpl in Hlt. exists (x :: pre), c, post. repeat split; [lia |].
      constructor; [lia | done].
  - destruct Hcase as [-> | (pre & c & post & -> & -> & Hlt & Hpre)];
      [by left | right].
    exists (x :: pre), c, post. repeat split; [done |].
    constructor; [lia | done].
Qed.

Lemma selector_scan_alt (soup : node) :
  selector_scan soup =
  foldl consider {| best_container := None; max_link_count := 0 |}
        (selector_matches soup).
Proof. unfold selector_scan, selector_matches. apply foldl_flat_map. Qed.

Lemma div_scan_alt (soup : node) (st : choice) :
  div_scan soup st =
  foldl consider st
        (List.filter (λ d, bool_decide (20 < link_count d)%nat)
                     (find_all (u "div") soup)).
Proof.
  unfold div_scan.
  apply (foldl_if_filter consider (λ d, bool_decide (20 < link_count d)%nat)).
Qed.

Lemma link_count_0 (n : node) : link_count n = 0%nat ↔ find_all (u "a") n = [].
Proof. unfold link_count. apply length_zero_iff_nil. Qed.

(** The selector scan leaves no container exactly when no matched element
    holds a link; the two variables are then as they were initialised. *)
Lemma div_scan_performed_spec (soup : node) :
  div_scan_performed soup = true ↔
  ∀ c, c ∈ selector_matches soup → find_all (u "a") c = [].
Proof.
  unfold div_scan_performed. rewrite selector_scan_alt.
  pose proof (foldl_consider {| best_container := None; max_link_count := 0 |}
                (selector_matches soup)) as [Hall Hcase].
  cbv zeta in Hall, Hcase. split.
  - intros Hnone c Hc.
    destruct Hcase as [Heq | (pre & c' & post & _ & Heq & _)];
      rewrite Heq in Hnone, Hall; simpl in *; [| done].
    rewrite Forall_forall in Hall. apply Hall in Hc.
    apply link_count_0. lia.
  - intros Hempty.
    destruct Hcase as [-> | (pre & c & post & Hm & _ & Hlt & _)]; [done |].
    assert (link_count c = 0%nat) as Hc; [| simpl in Hlt; lia].
    apply link_count_0, Hempty. rewrite Hm, elem_of_app, elem_of_cons. auto.
Qed.

Lemma selector_scan_none (soup : node) :
  div_scan_performed soup = true →
  selector_scan soup = {| best_container := None; max_link_count := 0 |}.
Proof.
  unfold div_scan_performed. rewrite selector_scan_alt.
  pose proof (foldl_consider {| best_container := None; max_link_count := 0 |}
                (selector_matches soup)) as [_ Hcase].
  cbv zeta in Hcase.
  destruct Hcase as [-> | (pre & c' & post & _ & -> & _)]; [done |].
  simpl. discriminate.
Qed.

(** C7, as the code has it. The scan of every [div] runs exactly when no
    element matched by a selector holds a link. When it runs, no container
    is returned exactly when no division holds more than 20 links, and the
    whole page is then the pool of links; a division it returns holds more
    than 20 links and as many as any division of the page. When it does not
    run, the container is a selector match with as many links as any. *)
Theorem container_fallback (soup : node) :
  (div_scan_performed soup = true ↔
   ∀ c, c ∈ selector_matches soup → find_all (u "a") c = [])
  ∧ (div_scan_performed soup = true →
     (choose_container soup = None ↔
      ∀ d, d ∈ find_all (u "div") soup → (link_count d ≤ 20)%nat)
     ∧ (choose_container soup = None →
        target_links soup = find_all (u "a") soup)
     ∧ (∀ d, choose_container soup = Some d →
          d ∈ find_all (u "div") soup ∧ (20 < link_count d)%nat
          ∧ ∀ d', d' ∈ find_all (u "div") soup →
                  (link_count d' ≤ link_count d)%nat))
  ∧ (div_scan_performed soup = false →
     ∃ c, choose_container soup = Some c ∧ c ∈ selector_matches soup
          ∧ ∀ c', c' ∈ selector_matches soup →
                  (link_count c' ≤ link_count c)%nat).
Proof.
  split; [apply div_scan_performed_spec |]. split.
  - intros Hperf. unfold target_links, choose_container.
    rewrite Hperf, (selector_scan_none soup Hperf), div_scan_alt.
    pose proof (foldl_consider
                  {| best_container := None; max_link_count := 0 |}
                  (List.filter (λ d, bool_decide (20 < link_count d)%nat)
                               (find_all (u "div") soup))) as [Hall Hcase].
    cbv zeta in Hall, Hcase. rewrite Forall_forall in Hall.
    assert (∀ d, d ∈ List.filter (λ d, bool_decide (20 < link_count d)%nat)
                       (find_all (u "div") soup)
                 ↔ d ∈ find_all (u "div") soup ∧ (20 < link_count d)%nat)
      as Hfilter.
    { intros d. rewrite !list_elem_of_In, filter_In, bool_decide_eq_true.
      done. }
    destruct Hcase as [Heq | (pre & c & post & Hl & Heq & Hlt & Hpre)];
      rewrite Heq in Hall |- *; simpl in *.
    + split; [| split]; [| done | done].
      split; [| done]. intros _ d Hd.
      destruct (decide (20 < link_count d)%nat) as [Hbig|]; [| lia].
      specialize (Hall d (proj2 (Hfilter d) (conj Hd Hbig))). lia.
    + assert (c ∈ find_all (u "div") soup ∧ (20 < link_count c)%nat)
        as [Hc Hbig].
      { apply Hfilter. rewrite Hl, elem_of_app, elem_of_cons. auto. }
      split; [| split]; [| done |].
      * split; [done |]. intros Hsmall. specialize (Hsmall c Hc). lia.
      * intros d [= <-]. split; [done |]. split; [done |]. intros d' Hd'.
        destruct (decide (20 < link_count d')%nat) as [Hbig'|]; [| lia].
        apply (Hall d'), Hfilter. done.
  - intros Hperf. unfold choose_container. rewrite Hperf.
    unfold div_scan_performed in Hperf. rewrite selector_scan_alt in Hperf |- *.
    pose proof (foldl_consider {| best_container := None; max_link_count := 0 |}
                  (selector_matches soup)) as [Hall Hcase].
    cbv zeta in Hall, Hcase. rewrite Forall_forall in Hall.
    destruct Hcase as [Heq | (pre & c & post & Hl & Heq & Hlt & Hpre)];
      rewrite Heq in Hperf, Hall |- *; simpl in *; [done |].
    exists c. split; [done |]. split; [| done].
    rewrite Hl, elem_of_app, elem_of_cons. auto.
Qed.

(** C7 as stated fails: on [empty_list_page] a selector yields a match and
    the scan of every [div] runs all the same, and returns its division. *)
Lemma div_scan_despite_selector_match :
  ¬ (div_scan_performed empty_list_page = true ↔
     ∀ selector, selector ∈ selectors → select empty_list_page selector = [])
  ∧ choose_container empty_list_page = Some crowded_div.
Proof.
  split.
  - intros [Hto _].
    assert (div_scan_performed empty_list_page = true) as Hp
      by (vm_compute; reflexivity).
    specialize (Hto Hp (u "#list")).
    assert (u "#list" ∈ selectors) as Hin by apply list_elem_of_here.
    apply Hto in Hin. vm_compute in Hin. discriminate.
  - vm_compute. reflexivity.
Qed.

(** ** The page walk: termination *)

(** Case analysis on one turn of the loop. *)
Ltac body_cases :=
  unfold loop_body, process_page, usable, enqueue in *;
  repeat case_match; simplify_eq/=.

Section WalkerFacts.
Context `{Unicode} `{Web}.

Lemma loop_condition_spec (st : state) :
  loop_condition st = true ↔
  urls_to_visit st ≠ [] ∧ (page_count st < max_pages)%nat.
Proof.
  unfold loop_condition.
  by rewrite andb_true_iff, !bool_decide_eq_true.
Qed.

(** A turn that ends normally leaves fewer turns to take. *)
Lemma loop_body_turns_left (st st' : state) :
  loop_condition st = true → loop_body st = Normal st' →
  (turns_left st' < turns_left st)%nat.
Proof.
  rewrite loop_condition_spec. intros [Hq Hc] Hbody. unfold turns_left.
  body_cases; unfold max_pages in *; rewrite ?length_app; simpl; lia.
Qed.

Lemma while_loop_enough_fuel (fuel : nat) (st : state) :
  (turns_left st ≤ fuel)%nat → is_Some (while_loop fuel st).
Proof.
  revert st. induction fuel as [|fuel IH]; intros st Hfuel; simpl.
  - destruct (loop_condition st) eqn:Hcond; [| done].
    apply loop_condition_spec in Hcond as [Hq Hc].
    unfold turns_left in Hfuel. lia.
  - destruct (loop_condition st) eqn:Hcond; [| done].
    destruct (loop_body st) as [st' | st'] eqn:Hbody; [| done].
    apply IH. pose proof (loop_body_turns_left st st' Hcond Hbody). lia.
Qed.

(** More turns than needed change nothing. *)
Lemma while_loop_more_fuel (fuel fuel' : nat) (st : state) (o : outcome) :
  while_loop fuel st = Some o → (fuel ≤ fuel')%nat →
  while_loop fuel' st = Some o.
Proof.
  revert fuel' st. induction fuel as [|fuel IH]; intros fuel' st Hrun Hle.
  - simpl in Hrun. destruct fuel'; simpl;
      destruct (loop_condition st); done.
  - destruct fuel' as [|fuel']; [lia |]. simpl in *.
    destruct (loop_condition st); [| done].
    destruct (loop_body st) as [st' | st']; [| done].
    apply IH; [done | lia].
Qed.

Lemma turns_left_seed (start_url : str) (more_link : option str) :
  turns_left (seed start_url more_link) = (2 * max_pages + 1)%nat.
Proof. unfold seed. by repeat case_match. Qed.

Lemma parse_chapters_terminates (start_url : str) :
  is_Some (parse_chapters start_url).
Proof.
  unfold parse_chapters, parse_chapters_fuel. repeat case_match; try done.
  apply while_loop_enough_fuel. by rewrite turns_left_seed.
Qed.

Lemma parse_chapters_more_fuel (fuel : nat) (start_url : str) :
  (2 * max_pages + 1 ≤ fuel)%nat →
  parse_chapters_fuel fuel start_url = parse_chapters start_url.
Proof.
  intros Hle. destruct (parse_chapters_terminates start_url) as [o Ho].
  rewrite Ho. unfold parse_chapters, parse_chapters_fuel in *.
  repeat case_match; try done. by eapply while_loop_more_fuel.
Qed.

(** A property that holds when the loop starts and that every turn keeps,
    holds of the state the loop ends in, however it ends. *)
Lemma while_loop_invariant (P : state → Prop) :
  (∀ st, loop_condition st = true → P st → P (final (loop_body st))) →
  ∀ fuel st o, P st → while_loop fuel st = Some o → P (final o).
Proof.
  intros Hstep fuel. induction fuel as [|fuel IH]; intros st o HP Hrun;
    simpl in Hrun; destruct (loop_condition st) eqn:Hcond;
    try discriminate; try (by injection Hrun as <-).
  specialize (Hstep st Hcond HP).
  destruct (loop_body st) as [st' | st'].
  - eapply IH; [exact Hstep | exact Hrun].
  - by injection Hrun as <-.
Qed.

(** The same for the whole of [parse_chapters]. *)
Lemma parse_chapters_invariant (P : state → Prop) (start_url : str) :
  (∀ more_link, P (seed start_url more_link)) →
  (∀ st, loop_condition st = true → P st → P (final (loop_body st))) →
  ∀ fuel o, parse_chapters_fuel fuel start_url = Some o → P (final o).
Proof.
  intros Hseed Hstep fuel o. unfold parse_chapters_fuel.
  repeat case_match; intros Hrun; simplify_eq/=;
    try (exact (Hseed None)).
  by eapply while_loop_invariant.
Qed.

End WalkerFacts.

(** ** Deduplication *)

Lemma any_url_spec (full_url : str) (chapters : list chapter) :
  any_url full_url chapters = true ↔ full_url ∈ url <$> chapters.
Proof.
  unfold any_url. rewrite existsb_exists, list_elem_of_fmap.
  setoid_rewrite bool_decide_eq_true. setoid_rewrite <- list_elem_of_In.
  split; intros (c & ? & ?); exists c; done.
Qed.

Lemma keep_any_url (kept : list chapter) (c : chapter) :
  keep kept c = if any_url (url c) kept then kept else kept ++ [c].
Proof. reflexivity. Qed.

Lemma first_occurrences_NoDup (kept l : list chapter) :
  NoDup (url <$> kept) → NoDup (url <$> first_occurrences kept l).
Proof.
  unfold first_occurrences. revert kept.
  induction l as [|c l IH]; intros kept Hkept; simpl; [done |].
  apply IH. rewrite keep_any_url.
  destruct (any_url (url c) kept) eqn:Hany; [done |].
  rewrite fmap_app. simpl. apply NoDup_app. split; [done |]. split.
  - intros x Hx Hx'. apply list_elem_of_singleton in Hx' as ->.
    apply any_url_spec in Hx. congruence.
  - apply NoDup_singleton.
Qed.

(** What deduplication keeps of [l]: the entries that come first for their
    URL, unless [kept] held the URL already. *)
Lemma first_occurrences_spec (kept l : list chapter) (c : chapter) :
  c ∈ first_occurrences kept l ↔
  c ∈ kept ∨ (first_occurrence c l ∧ url c ∉ url <$> kept).
Proof.
  unfold first_occurrences, first_occurrence. revert kept.
  induction l as [|x l IH]; intros kept; simpl.
  { split; [by left |]. intros [? | [(pre & post & Hl & _) _]]; [done |].
    by destruct pre. }
  rewrite IH, keep_any_url. clear IH.
  destruct (any_url (url x) kept) eqn:Hany.
  - apply any_url_spec in Hany. split.
    + intros [? | [(pre & post & -> & Hpre) Hc]]; [by left | right].
      split; [| done]. exists (x :: pre), post. split; [done |].
      intros c' [-> | Hc']%elem_of_cons; [congruence | by apply Hpre].
    + intros [? | [(pre & post & Hl & Hpre) Hc]]; [by left | right].
      split; [| done]. destruct pre as [|x' pre]; simplify_eq/=; [done |].
      exists pre, post. split; [done |]. intros c' Hc'. apply Hpre.
      by apply list_elem_of_further.
  - assert (url x ∉ url <$> kept) as Hx.
    { intros Hx%any_url_spec. congruence. }
    rewrite fmap_app, !elem_of_app. simpl.
    rewrite !list_elem_of_singleton. split.
    + intros [[? | ->] | [(pre & post & -> & Hpre) Hc]].
      * by left.
      * right. split; [| done]. exists [], l. split; [done |].
        intros c' Hc'. by apply elem_of_nil in Hc'.
      * right. split; [| tauto]. exists (x :: pre), post. split; [done |].
        intros c' [-> | Hc']%elem_of_cons; [| by apply Hpre].
        intros Heq. apply Hc. right. done.
    + intros [? | [(pre & post & Hl & Hpre) Hc]]; [tauto |].
      destruct pre as [|x' pre]; simplify_eq/=; [tauto |].
      right. split.
      * exists pre, post. split; [done |]. intros c' Hc'. apply Hpre.
        by apply list_elem_of_further.
      * intros [? | Heq]; [done |]. apply (Hpre x'); [| done].
        apply list_elem_of_here.
Qed.

Section Extraction.
Context `{Unicode} `{Web}.

(** One turn of the extraction loop: the candidate of the link, kept unless
    its URL is among the chapters accumulated or accepted so far. *)
Lemma extract_link_candidate (current_url : str)
    (all page : list chapter) (a : node) :
  extract_link current_url all page a =
  c ← candidate current_url a;
  Ok (match c with
      | Some c => if any_url (url c) (all ++ page) then page else page ++ [c]
      | None => page
      end).
Proof.
  unfold extract_link, candidate.
  destruct (get_href a) as [href|]; [| done].
  destruct (truthy (strip (get_text a)) && truthy href); [| done]. simpl.
  destruct (is_chapter_link _ href); [| done].
  destruct (urljoin current_url href) as [full_url|]; [| done]. simpl.
  unfold any_url. rewrite existsb_app.
  by destruct (existsb _ all), (existsb _ page).
Qed.

Lemma for_each_extract_link (current_url : str)
    (all page : list chapter) (links : list node) (pc : list chapter) :
  for_each (extract_link current_url all) page links = Ok pc →
  ∃ cands ext links',
    candidates current_url links = Ok cands
    ∧ all ++ pc = first_occurrences (all ++ page) cands
    ∧ pc = page ++ ext
    ∧ links' `sublist_of` links
    ∧ Forall2 (λ a c, candidate current_url a = Ok (Some c)) links' ext.
Proof.
  revert page. induction links as [|a links IH]; intros page Hrun; simpl in *.
  { injection Hrun as <-. exists [], [], []. rewrite app_nil_r.
    repeat split; constructor. }
  rewrite extract_link_candidate in Hrun.
  destruct (candidate current_url a) as [c|] eqn:Hcand; [| done].
  simpl in Hrun.
  destruct c as [c|]; simpl.
  - destruct (any_url (url c) (all ++ page)) eqn:Hany.
    + destruct (IH page Hrun) as (cands & ext & links' & -> & Heq & -> & Hsub & Hall).
      exists (c :: cands), ext, links'. simpl.
      unfold first_occurrences in *. simpl. rewrite keep_any_url, Hany.
      repeat split; [done.. | | done]. by apply sublist_cons.
    + destruct (IH (page ++ [c]) Hrun)
        as (cands & ext & links' & -> & Heq & -> & Hsub & Hall).
      exists (c :: cands), (c :: ext), (a :: links'). simpl.
      unfold first_occurrences in *. simpl. rewrite keep_any_url, Hany.
      repeat split.
      * by rewrite Heq, (assoc_L (++)).
      * by rewrite <- (assoc_L (++)).
      * by apply sublist_skip.
      * by constructor.
  - destruct (IH page Hrun) as (cands & ext & links' & -> & Heq & -> & Hsub & Hall).
    exists cands, ext, links'. repeat split; [done.. | | done].
    by apply sublist_cons.
Qed.

(** An extraction pass: what it accepts extends the accumulated chapters by
    the first occurrences among the page's candidates, and corresponds, in
    order, to some of the links of the page in document order. *)
Lemma extraction_pass_spec (current_url : str) (all : list chapter)
    (links : list node) (pc : list chapter) :
  extraction_pass current_url all links = Ok pc →
  ∃ cands links',
    candidates current_url links = Ok cands
    ∧ all ++ pc = first_occurrences all cands
    ∧ links' `sublist_of` links
    ∧ Forall2 (λ a c, candidate current_url a = Ok (Some c)) links' pc.
Proof.
  intros Hrun. apply for_each_extract_link in Hrun
    as (cands & ext & links' & Hc & Heq & -> & Hsub & Hall).
  rewrite app_nil_r in Heq. exists cands, links'. done.
Qed.

End Extraction.

(** ** The page walk: what every run keeps *)

Section WalkerInvariants.
Context `{Unicode} `{Web}.

Lemma chapters_inv_pass (st : state) (current_url : str) (soup : node)
    (pc : list chapter) (v : gset str) (q : list str) (n : nat)
    (f : list str) :
  chapters_inv st →
  extraction_pass current_url (all_chapters st) (target_links soup) = Ok pc →
  chapters_inv
    {| all_chapters := all_chapters st ++ pc;
       visited_urls := v; urls_to_visit := q; page_count := n; fetched := f;
       passes := passes st ++ [{| pass_url := current_url; pass_soup := soup;
                                  pass_chapters := pc |}] |}.
Proof.
  intros (Hcat & Hfirst & Hdoc) Hpass. unfold chapters_inv. simpl.
  apply extraction_pass_spec in Hpass as (cands & links' & Hc & Heq & Hsub & Hall).
  split; [| split].
  - rewrite fmap_app, concat_app. simpl. by rewrite app_nil_r, Hcat.
  - rewrite flat_map_app. simpl. rewrite app_nil_r.
    unfold produced at 2. simpl. rewrite Hc.
    unfold first_occurrences in *. by rewrite foldl_app, <- Hfirst.
  - intros p [Hp | ->%list_elem_of_singleton]%elem_of_app; [by apply Hdoc |].
    simpl. by exists links'.
Qed.

Lemma chapters_inv_same (st st' : state) :
  all_chapters st' = all_chapters st → passes st' = passes st →
  chapters_inv st → chapters_inv st'.
Proof. unfold chapters_inv. by intros -> ->. Qed.

Lemma chapters_inv_loop_body (st : state) :
  chapters_inv st → chapters_inv (final (loop_body st)).
Proof.
  intros Hinv. body_cases;
    first [ by eapply chapters_inv_same; [| | exact Hinv]
          | by eapply chapters_inv_pass ].
Qed.

Lemma chapters_inv_run (fuel : nat) (start_url : str) (o : outcome) :
  parse_chapters_fuel fuel start_url = Some o → chapters_inv (final o).
Proof.
  apply (parse_chapters_invariant chapters_inv).
  - intros more_link.
    apply (chapters_inv_same (initial_state start_url)).
    + unfold seed. by repeat case_match.
    + unfold seed. by repeat case_match.
    + repeat split. intros p Hp. by apply elem_of_nil in Hp.
  - intros st _. apply chapters_inv_loop_body.
Qed.

Lemma fetch_inv_skip (start_url : str) (st st' : state) :
  fetched st' = fetched st → visited_urls st ⊆ visited_urls st' →
  page_count st' = page_count st → passes st' = passes st →
  fetch_inv start_url st → fetch_inv start_url st'.
Proof.
  unfold fetch_inv, walk_fetches.
  intros -> Hvis -> -> (Hf & Hnd & Hv & Hrest).
  repeat split; try done; try apply Hrest. intros x Hx. by apply Hvis, Hv.
Qed.

Lemma fetch_inv_visit (start_url current_url : str) (st st' : state) :
  current_url ∉ visited_urls st →
  (page_count st < max_pages)%nat →
  fetched st' = fetched st ++ [current_url] →
  visited_urls st' = {[current_url]} ∪ visited_urls st →
  page_count st' = S (page_count st) →
  (∀ p, p ∈ passes st' → p ∈ passes st ∨ pass_url p = current_url) →
  fetch_inv start_url st → fetch_inv start_url st'.
Proof.
  unfold fetch_inv, walk_fetches.
  intros Hnew Hcap -> -> -> Hpasses (Hf & Hnd & Hvis & Hlen & _ & Hp).
  rewrite Hf in *. simpl in *. rewrite drop_0 in *.
  split; [done |]. split; [| split; [| split; [| split]]].
  - apply NoDup_app. split; [done |]. split; [| apply NoDup_singleton].
    intros x Hx ->%list_elem_of_singleton. by apply Hnew, Hvis.
  - intros x [Hx | ->%list_elem_of_singleton]%elem_of_app.
    + apply elem_of_union_r. by apply Hvis.
    + apply elem_of_union_l. by apply elem_of_singleton.
  - rewrite length_app. simpl. lia.
  - lia.
  - intros p [Hold | ->]%Hpasses; apply elem_of_app.
    + left. by apply Hp.
    + right. apply list_elem_of_here.
Qed.

Lemma fetch_inv_loop_body (start_url : str) (st : state) :
  loop_condition st = true →
  fetch_inv start_url st → fetch_inv start_url (final (loop_body st)).
Proof.
  intros [_ Hcap]%loop_condition_spec Hinv.
  unfold loop_body, process_page, usable, enqueue.
  destruct (urls_to_visit st) as [|current_url rest]; [done |].
  case_bool_decide as Hvis; [by eapply fetch_inv_skip; [| | | | exact Hinv] |].
  repeat case_match; simplify_eq/=;
    (eapply (fetch_inv_visit start_url current_url st);
     [exact Hvis | exact Hcap | done | done | done | | exact Hinv]);
    simpl; intros p Hp; auto;
    apply elem_of_app in Hp as [Hp | ->%list_elem_of_singleton]; auto.
Qed.

Lemma fetch_inv_run (fuel : nat) (start_url : str) (o : outcome) :
  parse_chapters_fuel fuel start_url = Some o →
  fetch_inv start_url (final o).
Proof.
  apply (parse_chapters_invariant (fetch_inv start_url)).
  - intros more_link.
    apply (fetch_inv_skip start_url (initial_state start_url));
      try (unfold seed; by repeat case_match).
    unfold fetch_inv, walk_fetches, max_pages. simpl.
    repeat split; [constructor | | lia |]; intros x Hx;
      by apply elem_of_nil in Hx.
  - intros st. apply fetch_inv_loop_body.
Qed.

End WalkerInvariants.

(** ** The page walk: deduplication, order and fetches *)

Section WalkerClaims.
Context `{Unicode} `{Web}.

(** C1. The sequence a crawl returns holds no URL twice, and holds exactly
    the chapters that come first for their URL among all the chapters the
    passes of the run produced, pass after pass and, within a pass, in the
    order of the page's links. *)
Theorem no_duplicate_urls (start_url : str) (o : outcome)
    (chapters : list chapter) :
  parse_chapters start_url = Some o → returned o = Ok chapters →
  NoDup (url <$> chapters)
  ∧ ∀ c, c ∈ chapters ↔
         first_occurrence c (flat_map produced (passes (final o))).
Proof.
  intros Hrun Hret. apply chapters_inv_run in Hrun as (_ & Hfirst & _).
  destruct o as [st | st]; simplify_eq/=. rewrite Hfirst. split.
  - apply first_occurrences_NoDup. constructor.
  - intros c. rewrite first_occurrences_spec. split.
    + intros [Hc | [Hc _]]; [by apply elem_of_nil in Hc | done].
    + intros Hc. right. split; [done |]. simpl. apply not_elem_of_nil.
Qed.

Lemma precedes_app {A : Type} (a b : A) (l0 l l1 : list A) :
  precedes a b l → precedes a b (l0 ++ l ++ l1).
Proof.
  intros (l2 & l3 & l4 & ->). exists (l0 ++ l2), l3, (l4 ++ l1).
  repeat (rewrite <- ?app_assoc; simpl; f_equal).
Qed.

(** The rest of a run: from a state in which the loop evaluates its
    condition, the loop ends as the crawl does. *)
Lemma walk_state_run (start_url : str) (st : state) (o : outcome) :
  walk_state start_url st → parse_chapters start_url = Some o →
  ∃ fuel, while_loop fuel st = Some o.
Proof.
  intros Hst Hrun.
  induction Hst as [html soup more Hhtml Hsoup Hmore | st st' _ IH Hcond Hbody].
  - unfold parse_chapters, parse_chapters_fuel in Hrun.
    rewrite Hhtml, Hsoup, Hmore in Hrun. by eexists.
  - destruct IH as [[|fuel] Hloop]; simpl in Hloop; rewrite Hcond in Hloop;
      [done |].
    rewrite Hbody in Hloop. by exists fuel.
Qed.

Lemma loop_body_chapters_prefix (st : state) :
  all_chapters st `prefix_of` all_chapters (final (loop_body st)).
Proof.
  unfold loop_body, process_page. repeat case_match; simpl;
    first [ done | by apply prefix_app_r ].
Qed.

Lemma while_loop_chapters_prefix (fuel : nat) (st : state) (o : outcome) :
  while_loop fuel st = Some o →
  all_chapters st `prefix_of` all_chapters (final o).
Proof.
  apply (while_loop_invariant
           (λ st', all_chapters st `prefix_of` all_chapters st')); [| done].
  intros st' _ Hpre. etrans; [exact Hpre | apply loop_body_chapters_prefix].
Qed.

(** The turn on a page that was fetched and parsed and whose extraction
    pass accepted [pc]: the accumulated chapters grow by [pc], whether the
    search for the next page raises or not. *)
Lemma loop_body_extends (st : state) (current_url : str) (rest : list str)
    (html : str) (soup : node) (pc : list chapter) :
  urls_to_visit st = current_url :: rest →
  current_url ∉ visited_urls st →
  usable (fetch_url (length (fetched st)) current_url) = Some html →
  BeautifulSoup html = Ok soup →
  extraction_pass current_url (all_chapters st) (target_links soup) = Ok pc →
  all_chapters (final (loop_body st)) = all_chapters st ++ pc.
Proof.
  intros Hq Hnew Hhtml Hsoup Hpass. unfold loop_body, process_page.
  rewrite Hq, bool_decide_eq_false_2 by done. rewrite Hhtml, Hsoup.
  cbn [all_chapters]. rewrite Hpass. by case_match.
Qed.

(** C8. Take any page the walk processes: the loop is at its condition in
    state [st], the URL at the head of the queue is not visited, its fetch
    gives a page that parses to [soup], and the extraction pass on it accepts
    the chapters [pc]. Then [pc] follows the links of the page in document
    order; the result of the crawl is what was accumulated before, then [pc]
    unchanged, then what later pages add; so two chapters accepted in this
    order by the pass are in this order in the result. *)
Theorem order_preserved (start_url : str) (o : outcome) (st : state)
    (current_url : str) (rest : list str) (html : str) (soup : node)
    (pc : list chapter) :
  parse_chapters start_url = Some o →
  walk_state start_url st →
  loop_condition st = true →
  urls_to_visit st = current_url :: rest →
  current_url ∉ visited_urls st →
  usable (fetch_url (length (fetched st)) current_url) = Some html →
  BeautifulSoup html = Ok soup →
  extraction_pass current_url (all_chapters st) (target_links soup) = Ok pc →
  (∃ links', links' `sublist_of` target_links soup
             ∧ Forall2 (λ a c, candidate current_url a = Ok (Some c))
                       links' pc)
  ∧ (∃ later, all_chapters (final o) = all_chapters st ++ pc ++ later)
  ∧ (∀ a b, precedes a b pc → precedes a b (all_chapters (final o))).
Proof.
  intros Hrun Hst Hcond Hq Hnew Hhtml Hsoup Hpass.
  assert (∃ later, all_chapters (final o) = all_chapters st ++ pc ++ later)
    as [later Hlater].
  { destruct (walk_state_run _ _ _ Hst Hrun) as [[|fuel] Hloop];
      simpl in Hloop; rewrite Hcond in Hloop; [done |].
    pose proof (loop_body_extends st current_url rest html soup pc
                  Hq Hnew Hhtml Hsoup Hpass) as Hext.
    destruct (loop_body st) as [st' | st']; simpl in Hext.
    - apply while_loop_chapters_prefix in Hloop as [later Hlater].
      exists later. by rewrite Hlater, Hext, <- app_assoc.
    - injection Hloop as <-. exists []. simpl. by rewrite Hext, app_nil_r. }
  split; [| split].
  - apply extraction_pass_spec in Hpass as (_ & links' & _ & _ & Hsub & Hall).
    by exists links'.
  - by exists later.
  - intros a b Hab. rewrite Hlater. by apply precedes_app.
Qed.

(** C6, as the code has it. The page walk fetches no URL twice; the start
    URL is fetched once before the walk, so that over the whole run the
    fetches are the start URL followed by the distinct URLs of the walk, at
    most [max_pages] of them. *)
Theorem walk_fetches_once (start_url : str) (o : outcome) :
  parse_chapters start_url = Some o →
  fetched (final o) = start_url :: walk_fetches (final o)
  ∧ NoDup (walk_fetches (final o))
  ∧ length (walk_fetches (final o)) = page_count (final o)
  ∧ (page_count (final o) ≤ max_pages)%nat.
Proof.
  intros Hrun. apply fetch_inv_run in Hrun as (? & ? & _ & ? & ? & _). done.
Qed.

End WalkerClaims.

(** C6 as stated fails: on a start page without catalog link the start URL
    is fetched for the detection and again by the walk. *)
Lemma start_url_fetched_twice :
  ∃ o, @parse_chapters ascii_only plain_site (u "http://h/book/") = Some o
       ∧ fetched (final o) = [u "http://h/book/"; u "http://h/book/"]
       ∧ ¬ NoDup (fetched (final o)).
Proof.
  eexists. split; [vm_compute; reflexivity |]. split; [reflexivity |].
  simpl. intros Hnd. apply NoDup_cons in Hnd as [Hnotin _].
  apply Hnotin, list_elem_of_here.
Qed.

(** ** Failures of the network *)

Section Failures.
Context `{Unicode} `{Web}.

Lemma for_each_no_raise {A S : Type} (body : S → A → exn S) (s : S)
    (l : list A) :
  (∀ s x, body s x ≠ Raise) → for_each body s l ≠ Raise.
Proof.
  intros Hbody. revert s. induction l as [|x l IH]; intros s; simpl; [done |].
  specialize (Hbody s x). destruct (body s x); [apply IH | done].
Qed.

Section NoRaise.
Hypothesis parser_total : ∀ html, BeautifulSoup html ≠ Raise.
Hypothesis urljoin_total : ∀ base href, urljoin base href ≠ Raise.

Lemma extraction_pass_no_raise (current_url : str) (all : list chapter)
    (links : list node) :
  extraction_pass current_url all links ≠ Raise.
Proof.
  apply for_each_no_raise. intros page a. unfold extract_link.
  pose proof (urljoin_total current_url) as Hjoin.
  repeat case_match; try done.
  destruct (urljoin current_url _) eqn:Hurl; simpl;
    [| by destruct (Hjoin _ Hurl)].
  by case_match.
Qed.

Lemma find_next_page_no_raise (current_url : str) (anchors : list node) :
  find_next_page current_url anchors ≠ Raise.
Proof.
  induction anchors as [|a rest IH]; cbn [find_next_page]; [done |].
  destruct (contains _ _); [| done].
  destruct (get_href a) as [href|]; [| done].
  destruct (truthy href); [| done].
  destruct (urljoin current_url href) eqn:Hurl; [done |].
  by destruct (urljoin_total _ _ Hurl).
Qed.

Lemma find_more_link_no_raise (start_url : str) (anchors : list node) :
  find_more_link start_url anchors ≠ Raise.
Proof.
  induction anchors as [|a rest IH]; cbn [find_more_link]; [done |].
  destruct (_ || _); [| done].
  destruct (get_href a) as [href|]; [| done].
  destruct (_ && _); [| done].
  destruct (urljoin start_url href) eqn:Hurl; [done |].
  by destruct (urljoin_total _ _ Hurl).
Qed.

Lemma loop_body_no_raise (st : state) :
  urls_to_visit st ≠ [] → ∃ st', loop_body st = Normal st'.
Proof.
  intros Hq. unfold loop_body, process_page.
  destruct (urls_to_visit st) as [|current_url rest]; [done |].
  case_bool_decide; [by eexists |].
  destruct (usable _) as [html|]; [| by eexists].
  pose proof (parser_total html).
  destruct (BeautifulSoup html) as [soup|]; [| done].
  pose proof (extraction_pass_no_raise current_url (all_chapters st)
                (target_links soup)).
  destruct (extraction_pass _ _ _) as [pc|]; [| done]. simpl.
  pose proof (find_next_page_no_raise current_url (find_all (u "a") soup)).
  destruct (find_next_page _ _) as [next|]; [| done]. by eexists.
Qed.

Lemma while_loop_no_raise (fuel : nat) (st : state) (o : outcome) :
  while_loop fuel st = Some o → ∃ st', o = Normal st'.
Proof.
  revert st. induction fuel as [|fuel IH]; intros st; simpl;
    destruct (loop_condition st) eqn:Hcond; intros Hrun; simplify_eq;
    try by eexists.
  apply loop_condition_spec in Hcond as [Hq _].
  destruct (loop_body_no_raise st Hq) as [st' Hbody].
  rewrite Hbody in Hrun. by eapply IH.
Qed.

Lemma parse_chapters_no_raise (start_url : str) :
  ∃ st, parse_chapters start_url = Some (Normal st).
Proof.
  destruct (parse_chapters_terminates start_url) as [o Ho]. rewrite Ho.
  unfold parse_chapters, parse_chapters_fuel in Ho.
  destruct (usable _) as [html|]; [| simplify_eq; by eexists].
  pose proof (parser_total html).
  destruct (BeautifulSoup html) as [soup|]; [| done].
  pose proof (find_more_link_no_raise start_url (find_all (u "a") soup)).
  destruct (find_more_link _ _) as [more|]; [| done].
  apply while_loop_no_raise in Ho as [st ->]. by eexists.
Qed.

End NoRaise.

(** C9. A request that raises makes [fetch_url] return [None]. When the
    fetch of the start URL fails, [parse_chapters] returns the empty list.
    When the fetch of a page of the walk fails, the turn ends normally and
    the page adds no chapter. And whatever the requests do, a crawl whose
    parser and [urljoin] do not raise returns normally. *)
Theorem fetch_failure_absorbed :
  (∀ n url, requests_get n url = Raise → fetch_url n url = None)
  ∧ (∀ start_url,
       fetch_url 0 start_url = None →
       ∃ o, parse_chapters start_url = Some o ∧ returned o = Ok [])
  ∧ (∀ st current_url rest,
       urls_to_visit st = current_url :: rest →
       current_url ∉ visited_urls st →
       fetch_url (length (fetched st)) current_url = None →
       ∃ st', loop_body st = Normal st'
              ∧ all_chapters st' = all_chapters st
              ∧ passes st' = passes st
              ∧ urls_to_visit st' = rest)
  ∧ ((∀ html, BeautifulSoup html ≠ Raise) →
     (∀ base href, urljoin base href ≠ Raise) →
     ∀ start_url, ∃ o chapters,
       parse_chapters start_url = Some o ∧ returned o = Ok chapters).
Proof.
  split; [| split; [| split]].
  - intros n url Hget. unfold fetch_url. by rewrite Hget.
  - intros start_url Hfetch. unfold parse_chapters, parse_chapters_fuel.
    rewrite Hfetch. simpl. by eexists.
  - intros st current_url rest Hq Hnew Hfetch. unfold loop_body.
    rewrite Hq, Hfetch. rewrite bool_decide_eq_false_2 by done. simpl.
    by eexists.
  - intros Hparser Hjoin start_url.
    destruct (parse_chapters_no_raise Hparser Hjoin start_url) as [st Hst].
    exists (Normal st), (all_chapters st). done.
Qed.

End Failures.

(** ** The catalog link of the start page *)

Section Redirect.
Context `{Unicode} `{Web}.









Lemma while_loop_turn (fuel : nat) (st : state) :
  loop_condition st = true →
  while_loop (S fuel) st =
  match loop_body st with
  | Normal st' => while_loop fuel st'
  | Exception st' => Some (Exception st')
  end.
Proof. intros Hcond. simpl. by rewrite Hcond. Qed.



End Redirect.


(** ** The page cap *)

Section PageCap.
Context `{Unicode} `{Web}.

Lemma on_chain_fresh (start_url : str) (chain : nat → str) (v0 : gset str)
    (i k : nat) (st : state) :
  (∀ i j, chain i = chain j → i = j) → (∀ i, chain i ∉ v0) →
  on_chain start_url chain v0 i st → (i ≤ k)%nat →
  chain k ∉ visited_urls st.
Proof.
  intros Hinj Hv0 (_ & _ & _ & Hvis) Hle Hin.
  apply Hvis in Hin as [Hin | (j & Hj & Heq)]; [by eapply Hv0 |].
  apply Hinj in Heq. lia.
Qed.

(** One turn on a chain moves the loop to the next page. *)
Lemma on_chain_turn (start_url : str) (chain : nat → str) (v0 : gset str)
    (i : nat) (st : state) :
  endless_chain start_url chain → (∀ i, chain i ∉ v0) →
  on_chain start_url chain v0 i st →
  ∃ st', loop_body st = Normal st' ∧ on_chain start_url chain v0 (S i) st'.
Proof.
  intros (Hinj & Hne & Hserved & _) Hv0 Hon.
  pose proof (on_chain_fresh _ _ _ i i st Hinj Hv0 Hon (le_n _)) as Hfresh.
  pose proof (on_chain_fresh _ _ _ i (S i) st Hinj Hv0 Hon (le_S _ _ (le_n _)))
    as Hfresh'.
  destruct Hon as (Hq & Hcount & Hfetched & Hvis).
  destruct (Hserved (length (fetched st)) i)
    as (html & soup & Hhtml & Hsoup & Hpass & Hnext).
  specialize (Hpass (all_chapters st)).
  unfold loop_body, process_page. rewrite Hq.
  rewrite bool_decide_eq_false_2 by done. rewrite Hhtml, Hsoup.
  destruct (extraction_pass _ _ _) as [pc|]; [| done].
  cbn [all_chapters visited_urls urls_to_visit page_count fetched passes].
  rewrite Hnext. eexists. split; [reflexivity |].
  unfold on_chain, enqueue.
  cbn [all_chapters visited_urls urls_to_visit page_count fetched passes].
  assert (truthy (chain (S i)) = true) as ->.
  { specialize (Hne (S i)). by destruct (chain (S i)). }
  rewrite bool_decide_eq_false_2.
  2:{ intros [Heq%elem_of_singleton | Hin]%elem_of_union; [| done].
      apply Hinj in Heq. lia. }
  cbn [negb andb app]. split; [done |]. split; [by rewrite Hcount |]. split.
  - rewrite Hfetched, seq_S, fmap_app. cbn [fmap list_fmap app Nat.add].
    reflexivity.
  - intros x [->%elem_of_singleton | Hin]%elem_of_union.
    + right. exists i. split; [lia | done].
    + apply Hvis in Hin as [? | (j & Hj & ->)]; [by left | right].
      exists j. split; [lia | done].
Qed.

Lemma on_chain_run (start_url : str) (chain : nat → str) (v0 : gset str)
    (k i fuel : nat) (st : state) :
  endless_chain start_url chain → (∀ i, chain i ∉ v0) →
  (i + k = max_pages)%nat → (k ≤ fuel)%nat →
  on_chain start_url chain v0 i st →
  ∃ st', while_loop fuel st = Some (Normal st')
         ∧ on_chain start_url chain v0 max_pages st'.
Proof.
  intros Hchain Hv0. revert i fuel st.
  induction k as [|k IH]; intros i fuel st Hsum Hfuel Hon.
  - assert (loop_condition st = false) as Hcond.
    { apply not_true_iff_false. rewrite loop_condition_spec.
      destruct Hon as (_ & -> & _). lia. }
    exists st. replace i with max_pages in Hon by lia. split; [| done].
    destruct fuel; simpl; by rewrite Hcond.
  - destruct fuel as [|fuel]; [lia |].
    assert (loop_condition st = true) as Hcond.
    { apply loop_condition_spec. destruct Hon as (-> & -> & _).
      split; [done | lia]. }
    rewrite while_loop_turn by done.
    destruct (on_chain_turn _ _ _ _ _ Hchain Hv0 Hon) as (st' & -> & Hon').
    apply (IH (S i)); [lia | lia | done].
Qed.

(** C4. The crawl terminates on every site, with the turns its definition
    allows or more. On a site whose pages form an unbounded chain of
    distinct next-page links, the walk visits exactly the first [max_pages]
    pages of the chain, stops with the next page still queued, and returns. *)
Theorem page_cap :
  (∀ start_url, is_Some (parse_chapters start_url))
  ∧ (∀ start_url fuel,
       (2 * max_pages + 1 ≤ fuel)%nat →
       parse_chapters_fuel fuel start_url = parse_chapters start_url)
  ∧ (∀ start_url chain,
       endless_chain start_url chain →
       ∃ st, parse_chapters start_url = Some (Normal st)
             ∧ page_count st = 50%nat
             ∧ walk_fetches st = chain <$> seq 0 50
             ∧ urls_to_visit st = [chain 50%nat]).
Proof.
  split; [apply parse_chapters_terminates |].
  split; [intros; by apply parse_chapters_more_fuel |].
  intros start_url chain Hchain.
  pose proof Hchain as (_ & _ & _ & Hstart).
  destruct Hstart as (html & soup & more_link & Hhtml & Hsoup & Hmore & Hq & Hv0).
  unfold parse_chapters, parse_chapters_fuel. rewrite Hhtml, Hsoup, Hmore.
  destruct (on_chain_run start_url chain
              (visited_urls (seed start_url more_link)) max_pages 0%nat
              (2 * max_pages + 1)%nat (seed start_url more_link) Hchain Hv0)
    as (st & Hrun & Hq' & Hcount & Hfetched & _).
  - done.
  - unfold max_pages. lia.
  - unfold on_chain. split; [done |].
    split; [unfold seed; by repeat case_match |].
    split; [unfold seed; by repeat case_match | auto].
  - exists st. split; [done |]. split; [done |]. split; [| done].
    unfold walk_fetches. by rewrite Hfetched.
Qed.

End PageCap.

(** ** The classifier and its caller *)

Section Caller.
Context `{Unicode} `{Web}.

(** C10. The classifier gives the same answer whatever the href; a link
    whose text is empty, or whose href is missing or empty, is skipped by
    the extraction pass before the classifier could run. *)
Theorem classification_ignores_href :
  (∀ text href1 href2,
     is_chapter_link text href1 = is_chapter_link text href2)
  ∧ (∀ current_url all page a,
       strip (get_text a) = [] ∨ get_href a = None ∨ get_href a = Some [] →
       extract_link current_url all page a = Ok page).
Proof.
  split; [reflexivity |].
  intros current_url all page a Hempty. unfold extract_link.
  destruct (get_href a) as [href|]; [| done].
  destruct Hempty as [-> | [? | [= ->]]]; [done.. |].
  by rewrite andb_false_r.
Qed.

End Caller.

(** ** The theorems at work on the example sites *)

Lemma no_exclusion_keyword `{Unicode} (text : str) :
  existsb (λ k, contains k text) exclude_keywords = false →
  ∀ k, k ∈ exclude_keywords → ¬ occurs_in k text.
Proof.
  intros Hex k Hk Hocc. apply not_true_iff_false in Hex. apply Hex.
  apply excluded_spec. by exists k.
Qed.

Lemma exclusion_precedence_witness :
  u "加入书架" ∈ exclude_keywords
  ∧ occurs_in (u "加入书架") (u "第3章 加入书架")
  ∧ @is_chapter_link ascii_only (u "第3章 加入书架") (u "/3.html") = false.
Proof.
  assert (u "加入书架" ∈ exclude_keywords) as Hk.
  { do 6 apply list_elem_of_further. apply list_elem_of_here. }
  assert (occurs_in (u "加入书架") (u "第3章 加入书架")) as Hocc.
  { exists (u "第3章 "), []. reflexivity. }
  split; [exact Hk |]. split; [exact Hocc |].
  exact (proj1 (@exclusion_precedence ascii_only) _ _ _ Hk Hocc).
Defined.

Lemma inclusion_rules_witness :
  (∀ k, k ∈ exclude_keywords → ¬ occurs_in k (u "序章"))
  ∧ (@is_chapter_link ascii_only (u "序章") (u "/0.html") = true ↔
     @has_chapter_marker (u "序章") ∨ @starts_with_number ascii_only (u "序章")
     ∨ @all_digits ascii_only (u "序章") ∨ (2 < length (u "序章"))%nat).
Proof.
  assert (∀ k, k ∈ exclude_keywords → ¬ occurs_in k (u "序章")) as Hfree.
  { apply (@no_exclusion_keyword ascii_only). reflexivity. }
  split; [exact Hfree |].
  exact (proj1 (@inclusion_rules ascii_only) (u "序章") (u "/0.html") Hfree).
Defined.

Lemma no_duplicate_urls_witness :
  ∃ o chapters,
    @parse_chapters ascii_only plain_site (u "http://h/book/") = Some o
    ∧ returned o = Ok chapters
    ∧ url <$> chapters = [u "http://h/book/1.html"; u "http://h/book/2.html"]
    ∧ NoDup (url <$> chapters).
Proof.
  eexists _, _. split; [vm_compute; reflexivity |].
  split; [reflexivity |]. split; [vm_compute; reflexivity |].
  refine (proj1 (@no_duplicate_urls ascii_only plain_site
                   (u "http://h/book/") _ _ _ _)).
  - vm_compute. reflexivity.
  - reflexivity.
Defined.

Lemma order_preserved_witness :
  ∃ o, @parse_chapters ascii_only plain_site (u "http://h/book/") = Some o
       ∧ all_chapters (final o)
         = [{| title := u "第1章"; url := u "http://h/book/1.html" |};
            {| title := u "第2章"; url := u "http://h/book/2.html" |}]
       ∧ precedes {| title := u "第1章"; url := u "http://h/book/1.html" |}
                  {| title := u "第2章"; url := u "http://h/book/2.html" |}
                  (all_chapters (final o)).
Proof.
  eexists. split; [vm_compute; reflexivity |]. split; [reflexivity |].
  refine (proj2 (proj2
    (@order_preserved ascii_only plain_site (u "http://h/book/") _
       (@seed (u "http://h/book/") None) (u "http://h/book/") [] _ _
       [{| title := u "第1章"; url := u "http://h/book/1.html" |};
        {| title := u "第2章"; url := u "http://h/book/2.html" |}]
       _ _ _ _ _ _ _ _)) _ _ _).
  - vm_compute. reflexivity.
  - eapply (@walk_start ascii_only plain_site (u "http://h/book/"));
      vm_compute; reflexivity.
  - reflexivity.
  - reflexivity.
  - change (u "http://h/book/" ∉ (∅ : gset str)). apply not_elem_of_empty.
  - vm_compute. reflexivity.
  - vm_compute. reflexivity.
  - vm_compute. reflexivity.
  - by exists [], [], [].
Defined.

Lemma walk_fetches_once_witness :
  ∃ o, @parse_chapters ascii_only plain_site (u "http://h/book/") = Some o
       ∧ NoDup (walk_fetches (final o)).
Proof.
  eexists. split; [vm_compute; reflexivity |].
  refine (proj1 (proj2 (@walk_fetches_once ascii_only plain_site
                          (u "http://h/book/") _ _))).
  vm_compute. reflexivity.
Defined.

Lemma fetch_failure_absorbed_witness :
  @fetch_url (table_web []) 0 (u "http://h/book/") = None
  ∧ ∃ o, @parse_chapters ascii_only (table_web []) (u "http://h/book/")
         = Some o
         ∧ returned o = Ok [].
Proof.
  split; [reflexivity |].
  refine (proj1 (proj2 (@fetch_failure_absorbed ascii_only (table_web [])))
            (u "http://h/book/") _).
  reflexivity.
Defined.

Lemma classification_ignores_href_witness :
  @strip ascii_only (get_text (anchor "http://h/book/1.html" " ")) = []
  ∧ @extract_link ascii_only plain_site (u "http://h/book/") [] []
      (anchor "http://h/book/1.html" " ") = Ok [].
Proof.
  split; [reflexivity |].
  refine (proj2 (@classification_ignores_href ascii_only plain_site)
            _ _ _ _ _).
  left. reflexivity.
Defined.

Lemma container_fallback_witness :
  div_scan_performed (document [anchor "http://h/book/1.html" "第1章"]) = true
  ∧ choose_container (document [anchor "http://h/book/1.html" "第1章"]) = None
  ∧ target_links (document [anchor "http://h/book/1.html" "第1章"])
    = find_all (u "a") (document [anchor "http://h/book/1.html" "第1章"]).
Proof.
  split; [reflexivity |]. split; [reflexivity |].
  refine (proj1 (proj2 (proj1 (proj2 (container_fallback _)) _)) _);
    reflexivity.
Defined.


(** The endless site is an unbounded chain of distinct next-page links. *)

Lemma endless_url_length (i : nat) : length (endless_url i) = (9 + i)%nat.
Proof.
  induction i as [|i IH]; [reflexivity |].
  cbn [endless_url]. rewrite length_app, IH. simpl. lia.
Qed.

Lemma endless_site_parse (url : str) :
  @BeautifulSoup endless_site
    (u "<a href='" ++ (url ++ u "n") ++ u "'>下一页</a>")
  = Ok (next_link_page (url ++ u "n")).
Proof.
  unfold BeautifulSoup, endless_site. do 2 f_equal.
  rewrite drop_app_length' by reflexivity.
  apply take_app_length'. rewrite !length_app.
  change (length (u "<a href='")) with 9%nat.
  change (length (u "'>下一页</a>")) with 9%nat. lia.
Qed.

Lemma next_link_page_chain (current_url href : str) :
  href ≠ [] →
  @chain_page ascii_only endless_site current_url href (next_link_page href).
Proof.
  intros Hne. destruct href as [|c href]; [done |]. split.
  - intros all. vm_compute. discriminate.
  - vm_compute. reflexivity.
Qed.

Lemma endless_site_chain :
  @endless_chain ascii_only endless_site (u "http://h/") endless_url.
Proof.
  split; [| split; [| split]].
  - intros i j Heq. apply (f_equal length) in Heq.
    rewrite !endless_url_length in Heq. lia.
  - intros i Heq. apply (f_equal length) in Heq.
    rewrite endless_url_length in Heq. simpl in Heq. lia.
  - intros n i. eexists _, _. split; [reflexivity |].
    split; [apply endless_site_parse |].
    apply (next_link_page_chain (endless_url i) (endless_url (S i))).
    intros Heq. apply (f_equal length) in Heq.
    rewrite endless_url_length in Heq. simpl in Heq. lia.
  - eexists _, _, _. split; [reflexivity |].
    split; [apply (endless_site_parse (u "http://h/")) |].
    split; [vm_compute; reflexivity |]. split; [reflexivity |].
    intros i. apply not_elem_of_empty.
Qed.

Lemma page_cap_witness :
  ∃ st, @parse_chapters ascii_only endless_site (u "http://h/")
        = Some (Normal st)
        ∧ page_count st = 50%nat
        ∧ walk_fetches st = endless_url <$> seq 0 50
        ∧ urls_to_visit st = [endless_url 50].
Proof.
  exact (proj2 (proj2 (@page_cap ascii_only endless_site))
           (u "http://h/") endless_url endless_site_chain).
Defined.

(** * Further properties of the code *)

(** ** Where the links of a page come from *)

(** Induction on a parsed page, with the property at hand for every child
    of an element. *)
Lemma node_nested_ind (P : node → Prop) :
  (∀ s, P (NavigableString s)) →
  (∀ name id classes href contents,
     Forall P contents → P (Tag name id classes href contents)) →
  ∀ n, P n.
Proof.
  intros Hstring Htag. fix IH 1. intros [s | name id classes href contents].
  - apply Hstring.
  - apply Htag. induction contents as [|c contents IHc]; constructor.
    + apply IH.
    + apply IHc.
Qed.

Lemma sublist_flat_map_elem {A B : Type} (f : A → list B) (x : A)
    (l : list A) :
  x ∈ l → f x `sublist_of` flat_map f l.
Proof.
  induction 1 as [x l | x y l Hx IH]; simpl.
  - by apply sublist_inserts_r.
  - by apply sublist_inserts_l.
Qed.

(** What lies below a descendant lies below the node, in the same order. *)
Lemma descendants_sublist (n c : node) :
  c ∈ descendants n → descendants c `sublist_of` descendants n.
Proof.
  revert c. induction n as [s | name id classes href contents IH]
    using node_nested_ind; intros c Hc; simpl in *.
  { by apply elem_of_nil in Hc. }
  apply list_elem_of_In, in_flat_map in Hc as (child & Hchild & Hc).
  apply list_elem_of_In in Hchild, Hc.
  etrans; [| apply (sublist_flat_map_elem _ child); exact Hchild].
  apply elem_of_cons in Hc as [-> | Hc].
  - by apply sublist_cons.
  - apply sublist_cons. rewrite Forall_forall in IH. by apply IH.
Qed.

Lemma sublist_filter_bool {A : Type} (p : A → bool) (l1 l2 : list A) :
  l1 `sublist_of` l2 → List.filter p l1 `sublist_of` List.filter p l2.
Proof.
  induction 1 as [| x l1 l2 Hsub IH | x l1 l2 Hsub IH]; simpl.
  - constructor.
  - destruct (p x); [by apply sublist_skip | done].
  - destruct (p x); [by apply sublist_cons | done].
Qed.

Lemma sublist_elem {A : Type} (l1 l2 : list A) (x : A) :
  l1 `sublist_of` l2 → x ∈ l1 → x ∈ l2.
Proof.
  induction 1 as [| y l1 l2 Hsub IH | y l1 l2 Hsub IH]; [done | |].
  - intros [-> | Hx]%elem_of_cons; [apply list_elem_of_here |].
    by apply list_elem_of_further, IH.
  - intros Hx. by apply list_elem_of_further, IH.
Qed.

Lemma find_all_sublist (name : str) (n c : node) :
  c ∈ descendants n → find_all name c `sublist_of` find_all name n.
Proof.
  intros Hc. unfold find_all. by apply sublist_filter_bool, descendants_sublist.
Qed.

Lemma elem_of_filter_bool {A : Type} (p : A → bool) (l : list A) (x : A) :
  x ∈ List.filter p l ↔ x ∈ l ∧ p x = true.
Proof. by rewrite !list_elem_of_In, filter_In. Qed.

Lemma selector_matches_descendants (soup c : node) :
  c ∈ selector_matches soup → c ∈ descendants soup.
Proof.
  unfold selector_matches. rewrite list_elem_of_In, in_flat_map.
  intros (selector & _ & Hc). apply list_elem_of_In in Hc.
  unfold select in Hc. repeat case_match;
    try (by apply elem_of_nil in Hc);
    by apply elem_of_filter_bool in Hc as [? _].
Qed.

(** The container, when there is one, is an element of the page. *)
Lemma choose_container_descendant (soup c : node) :
  choose_container soup = Some c → c ∈ descendants soup.
Proof.
  unfold choose_container.
  destruct (div_scan_performed soup) eqn:Hperf.
  - rewrite (selector_scan_none soup Hperf), div_scan_alt.
    pose proof (foldl_consider
                  {| best_container := None; max_link_count := 0 |}
                  (List.filter (λ d, bool_decide (20 < link_count d)%nat)
                               (find_all (u "div") soup))) as [_ Hcase].
    cbv zeta in Hcase.
    destruct Hcase as [-> | (pre & c' & post & Hl & -> & _)]; [done |].
    intros [= <-].
    assert (c' ∈ List.filter (λ d, bool_decide (20 < link_count d)%nat)
                   (find_all (u "div") soup)) as Hin.
    { rewrite Hl, elem_of_app, elem_of_cons. auto. }
    apply elem_of_filter_bool in Hin as [Hin _].
    by apply elem_of_filter_bool in Hin as [? _].
  - rewrite selector_scan_alt.
    pose proof (foldl_consider
                  {| best_container := None; max_link_count := 0 |}
                  (selector_matches soup)) as [_ Hcase].
    cbv zeta in Hcase.
    destruct Hcase as [-> | (pre & c' & post & Hl & -> & _)]; [done |].
    intros [= <-]. apply selector_matches_descendants.
    rewrite Hl, elem_of_app, elem_of_cons. auto.
Qed.

Lemma target_links_sublist (soup : node) :
  target_links soup `sublist_of` find_all (u "a") soup.
Proof.
  unfold target_links.
  destruct (choose_container soup) as [c|] eqn:Hc; [| done].
  by apply find_all_sublist, choose_container_descendant.
Qed.

(** X1. Whatever container is chosen, it is an element of the page, and the
    links the extraction pass works on are anchors of the page itself, in
    the order of the page. *)
Theorem target_links_of_page (soup : node) :
  (∀ c, choose_container soup = Some c → c ∈ descendants soup)
  ∧ target_links soup `sublist_of` find_all (u "a") soup.
Proof.
  split; [intros c; apply choose_container_descendant |].
  apply target_links_sublist.
Qed.

(** ** What the returned chapters look like *)

Section ReturnedChapters.
Context `{Unicode} `{Web}.

Lemma lstrip_split (s : str) :
  ∃ ws, s = ws ++ lstrip s ∧ Forall (λ c, isspace c = true) ws.
Proof.
  induction s as [|c s (ws & Hs & Hws)]; simpl.
  - by exists [].
  - destruct (isspace c) eqn:Hc.
    + exists (c :: ws). split; [by rewrite Hs at 1 | by constructor].
    + by exists [].
Qed.

Lemma lstrip_head (s : str) (x : N) :
  head (lstrip s) = Some x → isspace x = false.
Proof.
  induction s as [|c s IH]; simpl; [done |].
  destruct (isspace c) eqn:Hc; [done |]. simpl. by intros [= <-].
Qed.

Lemma rstrip_split (t : str) :
  ∃ ws, t = rstrip t ++ ws ∧ Forall (λ c, isspace c = true) ws.
Proof.
  unfold rstrip. destruct (lstrip_split (reverse t)) as (ws & Ht & Hws).
  exists (reverse ws). split.
  - rewrite <- reverse_app, <- Ht. by rewrite reverse_involutive.
  - by apply Forall_reverse.
Qed.

Lemma rstrip_last (t : str) (x : N) :
  last (rstrip t) = Some x → isspace x = false.
Proof.
  unfold rstrip. rewrite last_reverse. apply lstrip_head.
Qed.

Lemma rstrip_head (t : str) (x : N) :
  head (rstrip t) = Some x → head t = Some x.
Proof.
  destruct (rstrip_split t) as (ws & Ht & _). rewrite Ht at 2.
  by destruct (rstrip t).
Qed.

(** [strip] leaves no whitespace at either end. *)
Lemma strip_ends (s : str) (x : N) :
  head (strip s) = Some x ∨ last (strip s) = Some x → isspace x = false.
Proof.
  unfold strip. intros [Hx | Hx].
  - by apply rstrip_head, lstrip_head in Hx.
  - by apply rstrip_last in Hx.
Qed.

Lemma truthy_spec (s : str) : truthy s = true ↔ s ≠ [].
Proof. by destruct s. Qed.

(** What it takes for a link to stand for a chapter. *)
Lemma candidate_inv (current_url : str) (a : node) (c : chapter) :
  candidate current_url a = Ok (Some c) →
  ∃ href, get_href a = Some href ∧ href ≠ []
          ∧ title c = strip (get_text a) ∧ title c ≠ []
          ∧ is_chapter_link (title c) href = true
          ∧ urljoin current_url href = Ok (url c).
Proof.
  unfold candidate. destruct (get_href a) as [href|]; [| done].
  destruct (truthy (strip (get_text a)) && truthy href
            && is_chapter_link (strip (get_text a)) href) eqn:Hok; [| done].
  apply andb_true_iff in Hok as [[Htext Hhref]%andb_true_iff Hlink].
  destruct (urljoin current_url href) as [full_url|] eqn:Hurl; [| done].
  simpl. intros [= <-]. simpl. exists href.
  by rewrite <- !truthy_spec.
Qed.

(** Every chapter of the result was accepted by a pass of the run, for a
    link its page offered to the pass. *)
Lemma chapter_origin (start_url : str) (o : outcome) (c : chapter) :
  parse_chapters start_url = Some o → c ∈ all_chapters (final o) →
  ∃ p a, p ∈ passes (final o) ∧ a ∈ target_links (pass_soup p)
         ∧ candidate (pass_url p) a = Ok (Some c).
Proof.
  intros Hrun Hc. apply chapters_inv_run in Hrun as (Hcat & _ & Hdoc).
  rewrite Hcat in Hc. apply list_elem_of_In, in_concat in Hc as (pc & Hpc & Hc).
  apply list_elem_of_In in Hpc, Hc.
  apply list_elem_of_fmap in Hpc as (p & -> & Hp).
  destruct (Hdoc p Hp) as (links' & Hsub & Hall).
  apply list_elem_of_lookup in Hc as [i Hi].
  destruct (Forall2_lookup_r _ _ _ _ _ Hall Hi) as (a & Ha & Hcand).
  exists p, a. split; [done |]. split; [| done].
  eapply sublist_elem; [exact Hsub |]. by eapply list_elem_of_lookup_2.
Qed.


(** X3. The titles of the result are not empty and carry no whitespace at
    either end. *)
Theorem titles_trimmed (start_url : str) (o : outcome) (c : chapter) :
  parse_chapters start_url = Some o → c ∈ all_chapters (final o) →
  title c ≠ []
  ∧ ∀ x, head (title c) = Some x ∨ last (title c) = Some x →
         isspace x = false.
Proof.
  intros Hrun Hc.
  destruct (chapter_origin _ _ _ Hrun Hc) as (p & a & _ & _ & Hcand).
  apply candidate_inv in Hcand as (href & _ & _ & Htitle & Hne & _).
  split; [done |]. rewrite Htitle. apply strip_ends.
Qed.

(** X4. Every title of the result passes the classifier, so that no title
    holds a keyword of the exclusion list. *)
Theorem titles_pass_classifier (start_url : str) (o : outcome)
    (c : chapter) :
  parse_chapters start_url = Some o → c ∈ all_chapters (final o) →
  (∀ href, is_chapter_link (title c) href = true)
  ∧ ∀ k, k ∈ exclude_keywords → ¬ occurs_in k (title c).
Proof.
  intros Hrun Hc.
  destruct (chapter_origin _ _ _ Hrun Hc) as (p & a & _ & _ & Hcand).
  apply candidate_inv in Hcand as (href & _ & _ & _ & _ & Hlink & _).
  split; [intros href'; exact Hlink |].
  intros k Hk Hocc. unfold is_chapter_link in Hlink.
  replace (existsb (λ k, contains k (title c)) exclude_keywords) with true
    in Hlink; [done |].
  symmetry. apply excluded_spec. by exists k.
Qed.

End ReturnedChapters.

(** ** The walk is a single chain of pages *)

Section SingleChain.
Context `{Unicode} `{Web}.

Lemma enqueue_nil_length (next : option str) (visited : gset str) :
  (length (enqueue next visited []) ≤ 1)%nat.
Proof. unfold enqueue. repeat case_match; simpl; lia. Qed.

Lemma chain_inv_all_usable (st : state) (i : nat) (url : str) :
  chain_inv st → urls_to_visit st ≠ [] →
  fetched st !! i = Some url → usable (fetch_url i url) ≠ None.
Proof.
  intros [_ Hfail] Hq Hi Hnone. by destruct (Hfail i url Hi Hnone) as [_ ?].
Qed.

(** A turn keeps [chain_inv], and a turn that raises was not preceded by
    any unusable page. *)
Lemma chain_inv_loop_body (st : state) :
  chain_inv st → loop_condition st = true →
  match loop_body st with
  | Normal st' => chain_inv st'
  | Exception st' =>
    ∀ i url, fetched st' !! i = Some url → usable (fetch_url i url) ≠ None
  end.
Proof.
  intros Hinv [Hq _]%loop_condition_spec.
  pose proof (chain_inv_all_usable st) as Hok.
  specialize (λ i url, Hok i url Hinv Hq). destruct Hinv as [Hlen _].
  unfold loop_body, process_page.
  destruct (urls_to_visit st) as [|current_url rest] eqn:Hurls; [done |].
  assert (rest = []) as -> by (destruct rest; [done | simpl in Hlen; lia]).
  case_bool_decide as Hvis.
  { split; simpl; [lia |]. intros i url Hi Hnone. by destruct (Hok i url). }
  destruct (usable (fetch_url (length (fetched st)) current_url))
    as [html|] eqn:Hhtml.
  - assert (∀ i url, (fetched st ++ [current_url]) !! i = Some url →
                     usable (fetch_url i url) ≠ None) as Hok'.
    { intros i url [[_ Hi] | [-> <-]]%lookup_snoc_Some; [by apply Hok |].
      by rewrite Hhtml. }
    destruct (BeautifulSoup html) as [soup|]; [| exact Hok'].
    destruct (extraction_pass _ _ _) as [pc|]; [| exact Hok'].
    cbn [all_chapters visited_urls urls_to_visit page_count fetched passes].
    destruct (find_next_page _ _) as [next|]; [| exact Hok'].
    split; simpl; [apply enqueue_nil_length |].
    intros i url Hi Hnone. by destruct (Hok' i url).
  - split; simpl; [lia |].
    intros i url [[_ Hi] | [-> <-]]%lookup_snoc_Some Hnone.
    + by destruct (Hok i url).
    + by rewrite length_app, Nat.add_comm.
Qed.

Lemma chain_inv_seed (start_url html : str) (more_link : option str) :
  usable (fetch_url 0 start_url) = Some html →
  chain_inv (seed start_url more_link).
Proof.
  intros Hhtml.
  assert (fetched (seed start_url more_link) = [start_url]
          ∧ length (urls_to_visit (seed start_url more_link)) = 1%nat)
    as [Hf Hq] by (unfold seed; by repeat case_match).
  split; [lia |]. rewrite Hf.
  intros i url [-> ->]%list_lookup_singleton_Some Hnone. congruence.
Qed.

Lemma walk_state_chain_inv (start_url : str) (st : state) :
  walk_state start_url st → chain_inv st.
Proof.
  induction 1 as [html soup more Hhtml _ _ | st st' _ IH Hcond Hbody].
  - by eapply chain_inv_seed.
  - pose proof (chain_inv_loop_body st IH Hcond) as Hstep.
    by rewrite Hbody in Hstep.
Qed.

Lemma while_loop_chain_inv (fuel : nat) (st : state) (o : outcome) :
  chain_inv st → while_loop fuel st = Some o →
  ∀ i url,
    fetched (final o) !! i = Some url → usable (fetch_url i url) = None →
    length (fetched (final o)) = S i ∧ ∃ st', o = Normal st'.
Proof.
  revert st. induction fuel as [|fuel IH]; intros st Hinv Hrun; simpl in Hrun;
    destruct (loop_condition st) eqn:Hcond; simplify_eq.
  - intros i url Hi Hnone. destruct Hinv as [_ Hfail].
    destruct (Hfail i url Hi Hnone) as [? _]. eauto.
  - pose proof (chain_inv_loop_body st Hinv Hcond) as Hstep.
    destruct (loop_body st) as [st' | st']; [by eapply IH |].
    simplify_eq. intros i url Hi Hnone. by destruct (Hstep i url).
  - intros i url Hi Hnone. destruct Hinv as [_ Hfail].
    destruct (Hfail i url Hi Hnone) as [? _]. eauto.
Qed.

(** X5. The queue of the walk never holds more than one URL: in every state
    in which the loop evaluates its condition, and in the state a crawl
    ends in. The walk therefore follows one chain of next-page links. *)
Theorem queue_at_most_one (start_url : str) :
  (∀ st, walk_state start_url st → (length (urls_to_visit st) ≤ 1)%nat)
  ∧ (∀ o, parse_chapters start_url = Some o →
          (length (urls_to_visit (final o)) ≤ 1)%nat).
Proof.
  split.
  - intros st Hst. by apply walk_state_chain_inv in Hst as [? _].
  - intros o.
    apply (parse_chapters_invariant
             (λ st, (length (urls_to_visit st) ≤ 1)%nat)).
    + intros more_link. unfold seed. repeat case_match; simpl; lia.
    + intros st _ Hlen. unfold loop_body, process_page.
      destruct (urls_to_visit st) as [|current_url rest] eqn:Hurls;
        [simpl; rewrite Hurls; simpl; lia |].
      assert (rest = []) as -> by (destruct rest; [done | simpl in Hlen; lia]).
      repeat case_match; simpl; try lia; apply enqueue_nil_length.
Qed.

(** X6. A page that cannot be used (its fetch failed, or its text is empty)
    ends the crawl: the fetch is the last one of the run, and the crawl
    returns normally. *)
Theorem unusable_page_ends_crawl (start_url : str) (o : outcome) (i : nat)
    (url : str) :
  parse_chapters start_url = Some o →
  fetched (final o) !! i = Some url →
  usable (fetch_url i url) = None →
  length (fetched (final o)) = S i ∧ ∃ st, o = Normal st.
Proof.
  unfold parse_chapters, parse_chapters_fuel.
  destruct (usable (fetch_url 0 start_url)) as [html|] eqn:Hhtml.
  - destruct (BeautifulSoup html) as [soup|].
    + destruct (find_more_link _ _) as [more_link|].
      * intros Hrun. eapply while_loop_chain_inv; [| exact Hrun].
        by eapply chain_inv_seed.
      * intros [= <-]. simpl.
        intros [-> ->]%list_lookup_singleton_Some. congruence.
    + intros [= <-]. simpl.
      intros [-> ->]%list_lookup_singleton_Some. congruence.
  - intros [= <-]. simpl.
    intros [-> ->]%list_lookup_singleton_Some _. eauto.
Qed.

End SingleChain.

(** ** Short link texts *)

Section ShortTexts.
Context `{Unicode}.

(** X7. A text of one or two characters that does not start with a digit is
    rejected, whatever it is: 序, 楔子 or 后记 never become chapters. *)
Theorem short_text_rejected (text href : str) :
  (length text ≤ 2)%nat →
  (∀ d, head text = Some d → ¬ digit d) →
  is_chapter_link text href = false.
Proof.
  intros Hlen Hhead. unfold is_chapter_link.
  destruct (existsb _ exclude_keywords); [done |].
  destruct (re_search chapter_marker text) eqn:Hmark.
  { apply chapter_marker_spec in Hmark
      as (pre & ds & c & post & -> & Hne & _ & _).
    destruct ds; [done |]. rewrite !length_app in Hlen.
    change (length (u "第")) with 1%nat in Hlen. simpl in Hlen. lia. }
  assert (∀ ds rest, text = ds ++ rest → ds ≠ [] → Forall digit ds → False)
    as Hdigits.
  { intros [|d ds] rest -> Hne Hds; [done |].
    apply Forall_cons in Hds as [Hd _]. by apply (Hhead d). }
  destruct (re_at_start number_separator text) eqn:Hsep.
  { apply number_separator_spec in Hsep as (ds & c & post & Ht & Hne & Hds & _).
    by destruct (Hdigits ds (c :: post)). }
  destruct (re_at_start bare_number text) eqn:Hnum.
  { apply bare_number_spec in Hnum as [[Hne Hds] | (ds & Ht & Hne & Hds)].
    - destruct (Hdigits text []); [by rewrite app_nil_r | done..].
    - by destruct (Hdigits ds [10]). }
  apply bool_decide_eq_false. lia.
Qed.

End ShortTexts.

(** ** The page fetcher *)

Lemma contains_empty (s : str) : contains [] s = true.
Proof. by destruct s. Qed.

Section FetcherFacts.
Context `{Transport}.

Lemma repair_encoding_content (r : response) :
  content (repair_encoding r) = content r.
Proof. unfold repair_encoding. by case_bool_decide. Qed.

(** X8. The test of line 25 holds of every text that is not empty, so that
    the bytes of every such page are decoded as GBK first, whatever encoding
    the response declares: when that decoding succeeds its result is the
    page, and the text decoded under the response's own encoding is returned
    only when it is empty or the bytes are not GBK. *)
Theorem gbk_takes_precedence (parse : str → exn node)
    (join : str → str → exn str) (n : nat) (url : str) (r : response) :
  get n url get_headers 15%nat = Ok r →
  let text := text_of (repair_encoding r) in
  (∀ page, text ≠ [] → decode_gbk (content r) = Ok page →
           @fetch_url (fetcher_web parse join) n url = Some page)
  ∧ (text ≠ [] → decode_gbk (content r) = Raise →
     @fetch_url (fetcher_web parse join) n url = Some text)
  ∧ (text = [] → @fetch_url (fetcher_web parse join) n url = Some []).
Proof.
  intros Hget text. unfold fetch_url. simpl. unfold try_block.
  rewrite Hget. simpl. fold text.
  rewrite contains_empty, andb_true_r, repair_encoding_content.
  split; [| split].
  - intros page Hne Hgbk. apply truthy_spec in Hne. by rewrite Hne, Hgbk.
  - intros Hne Hgbk. apply truthy_spec in Hne. by rewrite Hne, Hgbk.
  - intros Hempty. by rewrite Hempty.
Qed.

End FetcherFacts.

(** ** The printed result *)

Lemma visible_by_computation (l : str) :
  forallb (N.leb 32) l = true → Forall (λ c, 32 ≤ c) l.
Proof.
  rewrite forallb_forall, Forall_forall. intros Hl c Hc.
  apply N.leb_le, Hl. by apply list_elem_of_In.
Qed.

Lemma hex_digit_visible (d : N) : 32 ≤ hex_digit d.
Proof. unfold hex_digit. case_match; lia. Qed.

Lemma hex4_visible (n : N) : Forall (λ c, 32 ≤ c) (hex4 n).
Proof. unfold hex4. simpl. repeat constructor; apply hex_digit_visible. Qed.

Lemma ESCAPE_DCT_visible (c : N) : Forall (λ c, 32 ≤ c) (ESCAPE_DCT c).
Proof.
  unfold ESCAPE_DCT. repeat case_match;
    try (by apply visible_by_computation).
  apply Forall_app. split; [| apply hex4_visible].
  by apply visible_by_computation.
Qed.

Lemma Forall_flat_map_intro {A B : Type} (P : B → Prop) (f : A → list B)
    (l : list A) :
  (∀ x, Forall P (f x)) → Forall P (flat_map f l).
Proof.
  intros Hf. induction l as [|x l IH]; simpl; [constructor |].
  apply Forall_app. by split.
Qed.

Lemma py_encode_basestring_visible (s : str) :
  Forall (λ c, 32 ≤ c) (py_encode_basestring s).
Proof.
  unfold py_encode_basestring. repeat (apply Forall_app; split);
    try (by apply visible_by_computation).
  apply Forall_flat_map_intro. intros c.
  destruct (escaped c) eqn:Hc; [apply ESCAPE_DCT_visible |].
  unfold escaped in Hc. apply orb_false_iff in Hc as [Hc _].
  apply orb_false_iff in Hc as [Hc%N.ltb_ge _]. by repeat constructor.
Qed.

Lemma replace_ascii_visible (c : N) : Forall (λ c, 32 ≤ c) (replace_ascii c).
Proof.
  unfold replace_ascii. repeat case_match; [apply ESCAPE_DCT_visible | |];
    repeat (apply Forall_app; split); try apply hex4_visible;
    by apply visible_by_computation.
Qed.

Lemma py_encode_basestring_ascii_visible (s : str) :
  Forall (λ c, 32 ≤ c) (py_encode_basestring_ascii s).
Proof.
  unfold py_encode_basestring_ascii. repeat (apply Forall_app; split);
    try (by apply visible_by_computation).
  apply Forall_flat_map_intro. intros c.
  destruct (escaped_ascii c) eqn:Hc; [apply replace_ascii_visible |].
  unfold escaped_ascii in Hc. apply orb_false_iff in Hc as [_ Hc].
  apply negb_false_iff, andb_true_iff in Hc as [Hc%N.leb_le _].
  by repeat constructor.
Qed.

Lemma join_visible (sep : str) (items : list str) :
  Forall (λ c, 32 ≤ c) sep → Forall (Forall (λ c, 32 ≤ c)) items →
  Forall (λ c, 32 ≤ c) (join sep items).
Proof.
  intros Hsep. induction 1 as [|x rest Hx Hrest IH]; [constructor |].
  cbn [join]. destruct rest; [done |].
  repeat (apply Forall_app; split); done.
Qed.

Lemma dumps_chapter_visible (c : chapter) :
  Forall (λ c, 32 ≤ c) (dumps_chapter c).
Proof.
  unfold dumps_chapter.
  repeat first [ apply py_encode_basestring_visible
               | by apply visible_by_computation
               | apply Forall_app; split ].
Qed.

Lemma dumps_chapters_visible (chapters : list chapter) :
  Forall (λ c, 32 ≤ c) (dumps_chapters chapters).
Proof.
  unfold dumps_chapters. apply Forall_app. split; [| apply Forall_app; split].
  - by apply visible_by_computation.
  - apply join_visible; [by apply visible_by_computation |].
    apply Forall_fmap, Forall_forall. intros c _. apply dumps_chapter_visible.
  - by apply visible_by_computation.
Qed.

Lemma dumps_error_visible (message : str) :
  Forall (λ c, 32 ≤ c) (dumps_error message).
Proof.
  unfold dumps_error.
  repeat first [ apply py_encode_basestring_ascii_visible
               | by apply visible_by_computation
               | apply Forall_app; split ].
Qed.

Section DriverFacts.
Context `{Unicode} `{Web}.

Lemma py_encode_basestring_raw (s : str) :
  (∀ c, c ∈ s → 32 ≤ c ∧ c ≠ 34 ∧ c ≠ 92) →
  py_encode_basestring s = [34] ++ s ++ [34].
Proof.
  intros Hs. unfold py_encode_basestring. do 2 f_equal.
  induction s as [|c s IH]; [done |]. cbn [flat_map].
  destruct (Hs c (list_elem_of_here _ _)) as (Hlo & H34 & H92).
  replace (escaped c) with false.
  - simpl. f_equal. apply IH. intros c' Hc'. apply Hs.
    by apply list_elem_of_further.
  - symmetry. unfold escaped.
    rewrite !orb_false_iff, N.ltb_ge, !N.eqb_neq. done.
Qed.

(** X9. Whatever the titles, the URLs or the message of an exception hold,
    what the driver prints ends with the newline of [print] and holds no
    code point below 32 before it: no line feed, no carriage return, no
    other control character of ASCII below the space. The encoder of the
    chapters escapes these, the quotation mark and the backslash and nothing
    else: every other character, U+007F, U+0085 or U+2028 among them, is
    written as it is. *)
Theorem output_escapes_below_space (str_e : state → str) :
  (∀ argv out status,
     main str_e argv = Some (out, status) →
     ∃ line, out = line ++ [10] ∧ Forall (λ c, 32 ≤ c) line)
  ∧ (∀ s, (∀ c, c ∈ s → 32 ≤ c ∧ c ≠ 34 ∧ c ≠ 92) →
          py_encode_basestring s = [34] ++ s ++ [34])
  ∧ py_encode_basestring [127; 133; 8232] = [34; 127; 133; 8232; 34].
Proof.
  split; [| split; [apply py_encode_basestring_raw | reflexivity]].
  intros argv out status.
  unfold main. destruct argv as [|prog [|target_url rest]].
  - intros Hout. exists (dumps_error (u "No URL provided")).
    split; [congruence | apply dumps_error_visible].
  - intros Hout. exists (dumps_error (u "No URL provided")).
    split; [congruence | apply dumps_error_visible].
  - destruct (parse_chapters target_url) as [[st | st]|];
      cbv [mbind option_bind]; [| | done]; intros Hout.
    + destruct (utf8_encodable _).
      * exists (dumps_chapters (all_chapters st)).
        split; [congruence | apply dumps_chapters_visible].
      * exists (dumps_error (str_e st)).
        split; [congruence | apply dumps_error_visible].
    + exists (dumps_error (str_e st)).
      split; [congruence | apply dumps_error_visible].
Qed.

(** X10. The driver prints for every command line. Without a URL it prints
    the error report and exits with status 1. With a URL the status is 0
    whatever happens, and a start page that cannot be used prints the empty
    array, as a book without chapters does. *)
Theorem driver_statuses (str_e : state → str) :
  (∀ argv, is_Some (main str_e argv))
  ∧ (∀ argv, (length argv < 2)%nat →
       main str_e argv
       = Some (dumps_error (u "No URL provided") ++ [10], 1%nat))
  ∧ (∀ argv out status,
       (2 ≤ length argv)%nat → main str_e argv = Some (out, status) →
       status = 0%nat)
  ∧ (∀ prog target_url rest,
       usable (fetch_url 0 target_url) = None →
       main str_e (prog :: target_url :: rest) = Some (u "[]" ++ [10], 0%nat)).
Proof.
  split; [| split; [| split]].
  - intros [|prog [|target_url rest]]; simpl; [done.. |].
    destruct (parse_chapters_terminates target_url) as [o ->]. done.
  - intros [|prog [|target_url rest]]; simpl; [done.. | lia].
  - intros [|prog [|target_url rest]] out status; simpl; [lia.. |].
    intros _. destruct (parse_chapters target_url); simpl; [| done].
    congruence.
  - intros prog target_url rest Hfetch. simpl.
    unfold parse_chapters, parse_chapters_fuel. by rewrite Hfetch.
Qed.

End DriverFacts.

(** ** The printed result determines the chapters *)

Lemma escaped_cases (c : N) :
  escaped c = true → c < 32 ∨ c = 92 ∨ c = 34.
Proof.
  unfold escaped. rewrite !orb_true_iff, N.ltb_lt, !N.eqb_eq. tauto.
Qed.

(** Reading an escape gives back the character it stands for. *)
Lemma read_body_escape (c : N) (k : str) :
  escaped c = true →
  read_body (ESCAPE_DCT c ++ k) =
  '(t, rest) ← read_body k; Some (c :: t, rest).
Proof.
  intros [Hc | [-> | ->]]%escaped_cases; [| reflexivity..].
  rewrite <- (N2Nat.id c). assert (N.to_nat c < 32)%nat as Hn by lia.
  clear Hc. revert Hn. generalize (N.to_nat c). clear c. intros n Hn.
  do 32 (destruct n as [|n]; [reflexivity |]). lia.
Qed.

Lemma read_body_plain (c : N) (k : str) :
  escaped c = false →
  read_body (c :: k) = '(t, rest) ← read_body k; Some (c :: t, rest).
Proof.
  unfold escaped. rewrite !orb_false_iff. intros [[_ H92] H34].
  cbn [read_body]. by rewrite H34, H92.
Qed.

Lemma read_body_encode (s rest : str) :
  read_body (flat_map (λ c, if escaped c then ESCAPE_DCT c else [c]) s
             ++ [34] ++ rest)
  = Some (s, rest).
Proof.
  induction s as [|c s IH]; [reflexivity |].
  cbn [flat_map]. rewrite <- app_assoc.
  destruct (escaped c) eqn:Hc.
  - rewrite read_body_escape by done. by rewrite IH.
  - change ([c] ++ ?k) with (c :: k). rewrite read_body_plain by done.
    by rewrite IH.
Qed.

(** What [py_encode_basestring] writes can be read back, whatever follows
    it. *)
Lemma read_string_encode (s rest : str) :
  read_string (py_encode_basestring s ++ rest) = Some (s, rest).
Proof.
  unfold py_encode_basestring. rewrite <- !app_assoc.
  change ([34] ++ ?k) with (34 :: k) at 1. cbn [read_string].
  apply read_body_encode.
Qed.

Lemma py_encode_basestring_inj_app (s1 s2 r1 r2 : str) :
  py_encode_basestring s1 ++ r1 = py_encode_basestring s2 ++ r2 →
  s1 = s2 ∧ r1 = r2.
Proof.
  intros Heq. apply (f_equal read_string) in Heq.
  rewrite !read_string_encode in Heq. by injection Heq.
Qed.

Lemma dumps_chapter_inj_app (c1 c2 : chapter) (r1 r2 : str) :
  dumps_chapter c1 ++ r1 = dumps_chapter c2 ++ r2 → c1 = c2 ∧ r1 = r2.
Proof.
  unfold dumps_chapter. rewrite <- !app_assoc. intros Heq.
  apply app_inv_head, app_inv_head, app_inv_head in Heq.
  apply py_encode_basestring_inj_app in Heq as [Htitle Heq].
  apply app_inv_head, app_inv_head, app_inv_head in Heq.
  apply py_encode_basestring_inj_app in Heq as [Hurl Heq].
  apply app_inv_head in Heq.
  destruct c1, c2; simpl in *. by subst.
Qed.

Lemma join_array_tail (c : chapter) (chapters : list chapter) :
  join (u ", ") (dumps_chapter <$> (c :: chapters)) ++ u "]"
  = dumps_chapter c ++ array_tail chapters.
Proof.
  revert c. induction chapters as [|c' chapters IH]; intros c; [done |].
  change (dumps_chapter <$> c :: c' :: chapters)
    with (dumps_chapter c :: (dumps_chapter <$> c' :: chapters)).
  cbn [join]. change (dumps_chapter <$> c' :: chapters)
    with (dumps_chapter c' :: (dumps_chapter <$> chapters)) at 1.
  cbv iota. rewrite <- !app_assoc, IH. unfold array_tail. cbn [flat_map].
  by rewrite <- !app_assoc.
Qed.

Lemma array_tail_inj (l1 l2 : list chapter) :
  array_tail l1 = array_tail l2 → l1 = l2.
Proof.
  revert l2. unfold array_tail.
  induction l1 as [|c1 l1 IH]; intros [|c2 l2]; cbn [flat_map];
    rewrite <- ?app_assoc; try done.
  intros Heq. apply app_inv_head in Heq.
  apply dumps_chapter_inj_app in Heq as [-> Heq]. f_equal. by apply IH.
Qed.

(** X11. Two lists of chapters are printed alike only when they are the
    same list: the printed array determines every title and every URL,
    whatever characters they hold. *)
Theorem dumps_chapters_inj (l1 l2 : list chapter) :
  dumps_chapters l1 = dumps_chapters l2 ↔ l1 = l2.
Proof.
  split; [| by intros ->].
  unfold dumps_chapters. intros Heq. apply app_inv_head in Heq.
  destruct l1 as [|c1 l1], l2 as [|c2 l2]; [done | | |].
  - rewrite join_array_tail in Heq. unfold dumps_chapter in Heq.
    change (u "{") with [123] in Heq. change (u "]") with [93] in Heq.
    done.
  - rewrite join_array_tail in Heq. unfold dumps_chapter in Heq.
    change (u "{") with [123] in Heq. change (u "]") with [93] in Heq.
    done.
  - rewrite !join_array_tail in Heq.
    apply dumps_chapter_inj_app in Heq as [-> Heq]. f_equal.
    by apply array_tail_inj.
Qed.

Section DriverOutput.
Context `{Unicode} `{Web}.

(** X13. What the driver prints is either an array or an error report, and
    the first character tells which. An array is printed only for a crawl
    that returned, and it is the print of the chapters returned; every
    other outcome prints a report. *)
Theorem result_or_report (str_e : state → str) (argv : list str)
    (out : str) (status : nat) :
  main str_e argv = Some (out, status) →
  (head out = Some 91
   ∧ ∃ target_url st,
       argv !! 1%nat = Some target_url
       ∧ parse_chapters target_url = Some (Normal st)
       ∧ out = dumps_chapters (all_chapters st) ++ [10])
  ∨ (head out = Some 123 ∧ ∃ message, out = dumps_error message ++ [10]).
Proof.
  unfold main. destruct argv as [|prog [|target_url rest]].
  - intros Hout. right. assert (out = dumps_error (u "No URL provided") ++ [10])
      as -> by congruence. split; [done | by eexists].
  - intros Hout. right. assert (out = dumps_error (u "No URL provided") ++ [10])
      as -> by congruence. split; [done | by eexists].
  - destruct (parse_chapters target_url) as [[st | st]|] eqn:Hrun;
      cbv [mbind option_bind]; [| | done]; intros Hout.
    + destruct (utf8_encodable _).
      * left. assert (out = dumps_chapters (all_chapters st) ++ [10])
          as -> by congruence.
        split; [done |]. by exists target_url, st.
      * right. assert (out = dumps_error (str_e st) ++ [10])
          as -> by congruence. split; [done | by eexists].
    + right. assert (out = dumps_error (str_e st) ++ [10])
        as -> by congruence. split; [done | by eexists].
Qed.

End DriverOutput.

Lemma hex_digit_ascii (d : N) : d < 16 → 32 ≤ hex_digit d ≤ 126.
Proof. unfold hex_digit. case_match; lia. Qed.

Lemma hex4_ascii (n : N) : Forall (λ c, 32 ≤ c ≤ 126) (hex4 n).
Proof.
  unfold hex4. simpl.
  repeat constructor; apply hex_digit_ascii; by apply N.mod_lt.
Qed.

Lemma ascii_by_computation (l : str) :
  forallb (λ c, (32 <=? c) && (c <=? 126)) l = true →
  Forall (λ c, 32 ≤ c ≤ 126) l.
Proof.
  rewrite forallb_forall, Forall_forall. intros Hl c Hc.
  apply list_elem_of_In, Hl in Hc. apply andb_true_iff in Hc.
  by rewrite !N.leb_le in Hc.
Qed.

Lemma ESCAPE_DCT_ascii (c : N) : Forall (λ c, 32 ≤ c ≤ 126) (ESCAPE_DCT c).
Proof.
  unfold ESCAPE_DCT. repeat case_match; try (by apply ascii_by_computation).
  apply Forall_app. split; [by apply ascii_by_computation | apply hex4_ascii].
Qed.

Lemma replace_ascii_ascii (c : N) :
  Forall (λ c, 32 ≤ c ≤ 126) (replace_ascii c).
Proof.
  unfold replace_ascii. repeat case_match; [apply ESCAPE_DCT_ascii | |];
    repeat first [ apply hex4_ascii
                 | by apply ascii_by_computation
                 | apply Forall_app; split ].
Qed.

Lemma py_encode_basestring_ascii_ascii (s : str) :
  Forall (λ c, 32 ≤ c ≤ 126) (py_encode_basestring_ascii s).
Proof.
  unfold py_encode_basestring_ascii.
  apply Forall_app. split; [by apply ascii_by_computation |].
  apply Forall_app. split; [| by apply ascii_by_computation].
  apply Forall_flat_map_intro. intros c.
  destruct (escaped_ascii c) eqn:Hc; [apply replace_ascii_ascii |].
  unfold escaped_ascii in Hc. apply orb_false_iff in Hc as [_ Hc].
  apply negb_false_iff, andb_true_iff in Hc as [Hlo%N.leb_le Hhi%N.leb_le].
  by repeat constructor.
Qed.

(** X12. An error report is written in printable ASCII, whatever characters
    the message of the exception holds. *)
Theorem error_report_is_ascii (message : str) :
  Forall (λ c, 32 ≤ c ≤ 126) (dumps_error message).
Proof.
  unfold dumps_error.
  repeat first [ apply py_encode_basestring_ascii_ascii
               | by apply ascii_by_computation
               | apply Forall_app; split ].
Qed.

(** ** The further properties at work on the example sites *)

Lemma target_links_of_page_witness :
  choose_container empty_list_page = Some crowded_div
  ∧ crowded_div ∈ descendants empty_list_page.
Proof.
  split; [reflexivity |].
  refine (proj1 (target_links_of_page empty_list_page) crowded_div _).
  reflexivity.
Defined.


Lemma titles_trimmed_witness :
  ∃ o c,
    @parse_chapters ascii_only plain_site (u "http://h/book/") = Some o
    ∧ c ∈ all_chapters (final o)
    ∧ title c ≠ []
    ∧ ∀ x, head (title c) = Some x ∨ last (title c) = Some x →
           @isspace ascii_only x = false.
Proof.
  eexists _, {| title := u "第2章"; url := u "http://h/book/2.html" |}.
  split; [vm_compute; reflexivity |].
  assert ({| title := u "第2章"; url := u "http://h/book/2.html" |}
          ∈ [{| title := u "第1章"; url := u "http://h/book/1.html" |};
             {| title := u "第2章"; url := u "http://h/book/2.html" |}])
    as Hin by apply list_elem_of_further, list_elem_of_here.
  split; [exact Hin |].
  eapply (@titles_trimmed ascii_only plain_site (u "http://h/book/"));
    [vm_compute; reflexivity | exact Hin].
Defined.

Lemma titles_pass_classifier_witness :
  ∃ o c,
    @parse_chapters ascii_only plain_site (u "http://h/book/") = Some o
    ∧ c ∈ all_chapters (final o)
    ∧ (∀ href, @is_chapter_link ascii_only (title c) href = true)
    ∧ ∀ k, k ∈ exclude_keywords → ¬ occurs_in k (title c).
Proof.
  eexists _, {| title := u "第2章"; url := u "http://h/book/2.html" |}.
  split; [vm_compute; reflexivity |].
  assert ({| title := u "第2章"; url := u "http://h/book/2.html" |}
          ∈ [{| title := u "第1章"; url := u "http://h/book/1.html" |};
             {| title := u "第2章"; url := u "http://h/book/2.html" |}])
    as Hin by apply list_elem_of_further, list_elem_of_here.
  split; [exact Hin |].
  eapply (@titles_pass_classifier ascii_only plain_site (u "http://h/book/"));
    [vm_compute; reflexivity | exact Hin].
Defined.

Lemma queue_at_most_one_witness :
  ∃ o, @parse_chapters ascii_only paged_site (u "http://h/list/") = Some o
       ∧ (length (urls_to_visit (final o)) ≤ 1)%nat.
Proof.
  eexists. split; [vm_compute; reflexivity |].
  refine (proj2 (@queue_at_most_one ascii_only paged_site (u "http://h/list/"))
            _ _).
  vm_compute. reflexivity.
Defined.

Lemma unusable_page_ends_crawl_witness :
  ∃ o, @parse_chapters ascii_only broken_next_site (u "http://h/list/")
       = Some o
       ∧ fetched (final o) !! 2%nat = Some (u "http://h/list/2")
       ∧ usable (@fetch_url broken_next_site 2 (u "http://h/list/2")) = None
       ∧ length (fetched (final o)) = 3%nat
       ∧ ∃ st, o = Normal st.
Proof.
  eexists. split; [vm_compute; reflexivity |].
  split; [reflexivity |]. split; [reflexivity |].
  refine (@unusable_page_ends_crawl ascii_only broken_next_site
            (u "http://h/list/") _ 2%nat (u "http://h/list/2") _ _ _);
    reflexivity.
Defined.

Lemma short_text_rejected_witness :
  (length (u "楔子") ≤ 2)%nat
  ∧ (∀ d, head (u "楔子") = Some d → ¬ @digit ascii_only d)
  ∧ @is_chapter_link ascii_only (u "楔子") (u "/0.html") = false.
Proof.
  assert (∀ d, head (u "楔子") = Some d → ¬ @digit ascii_only d) as Hhead.
  { intros d [= <-] [[Hlo Hhi] | Huni]; [| discriminate Huni].
    apply Hhi. reflexivity. }
  split; [apply le_n |]. split; [exact Hhead |].
  exact (@short_text_rejected ascii_only (u "楔子") (u "/0.html")
           (le_n _) Hhead).
Defined.

Lemma gbk_takes_precedence_witness :
  @fetch_url (@fetcher_web ascii_transport (λ _, Raise) (λ _ href, Ok href))
    0 (u "http://h/")
  = Some (u "<a href='http://h/1.html'>1</a>").
Proof.
  refine (proj1 (@gbk_takes_precedence ascii_transport (λ _, Raise)
                   (λ _ href, Ok href) 0%nat (u "http://h/") _ eq_refl)
            _ _ _).
  - discriminate.
  - reflexivity.
Defined.

Lemma output_escapes_below_space_witness :
  ∃ line,
    u "[{" ++ [34] ++ u "title" ++ [34] ++ u ": " ++ [34] ++ u "第1章" ++ [34]
    ++ u ", " ++ [34] ++ u "url" ++ [34] ++ u ": " ++ [34] ++ u "http://h/1.html"
    ++ [34] ++ u "}]" ++ [10]
    = line ++ [10]
    ∧ Forall (λ c, 32 ≤ c) line.
Proof.
  refine (proj1 (@output_escapes_below_space ascii_only broken_next_site
                   (λ _, []))
            [u "crawler.py"; u "http://h/list/"] _ 0%nat _).
  vm_compute. reflexivity.
Defined.

Lemma driver_statuses_witness :
  @usable (@fetch_url (table_web []) 0 (u "http://h/")) = None
  ∧ @main ascii_only (table_web []) (λ _, [])
      [u "crawler.py"; u "http://h/"]
    = Some (u "[]" ++ [10], 0%nat).
Proof.
  split; [reflexivity |].
  refine (proj2 (proj2 (proj2 (@driver_statuses ascii_only (table_web [])
                                 (λ _, []))))
            (u "crawler.py") (u "http://h/") [] _).
  reflexivity.
Defined.

Lemma dumps_chapters_inj_witness :
  [{| title := u "第1章"; url := u "http://h/1.html" |}]
  = [{| title := u "第1章"; url := u "http://h/1.html" |}].
Proof.
  exact (proj1 (dumps_chapters_inj
                  [{| title := u "第1章"; url := u "http://h/1.html" |}]
                  [{| title := u "第1章"; url := u "http://h/1.html" |}])
           eq_refl).
Defined.

Lemma result_or_report_witness :
  ∃ out,
    @main ascii_only broken_next_site (λ _, [])
      [u "crawler.py"; u "http://h/list/"] = Some (out, 0%nat)
    ∧ head out = Some 91
    ∧ out = dumps_chapters [{| title := u "第1章"; url := u "http://h/1.html" |}]
            ++ [10].
Proof.
  eexists. split; [vm_compute; reflexivity |]. split; [reflexivity |].
  destruct (@result_or_report ascii_only broken_next_site (λ _, [])
              [u "crawler.py"; u "http://h/list/"] _ 0%nat eq_refl)
    as [(_ & target_url & st & Harg & Hrun & Hout) | (Hhead & _)].
  - vm_compute. reflexivity.
  - discriminate Hhead.
Defined.
